(** * Totally ordered multicast with Lamport clocks

    A shallow embedding of [src/message.py] and [src/process.py], and the
    properties of the delivery queue, the acknowledgment table, the pending
    acknowledgment buffer and the logical clock.

    Conventions of the embedding.
    - Python [int] is [Z] (unbounded); [len] of a set is a [nat].
    - Python [str] is [string]; a string stands for its UTF-8 bytes, whose
      byte-wise lexicographic order is the code point order Python uses.
    - A [dict] is a [gmap], a [set] a [gset], a [list] a [list].
    - The fields of [Message] have the types annotated in
      [Message.__init__]; dictionaries read from the wire hold [value]s.
    - Every [threading.Lock] attribute is a boolean (true when held); the
      locks are not reentrant, so acquiring a held lock never returns.
    - One method call runs to completion before the next one starts: the
      interleaving of threads inside a method is outside this model.
    - [print] is omitted; the delivery callback, the timer and the sockets
      opened by a broadcast are recorded in the [effects] of the process. *)

From Stdlib Require Import ZArith String DecimalString.
From Stdlib Require DecimalPos DecimalZ.
From stdpp Require Import base option list gmap sets strings sorting.

(** ** Python values and exceptions *)

(** The JSON-decoded values a wire dictionary holds for the six fields. *)
Inductive value : Type :=
  | VNone
  | VInt (z : Z)
  | VStr (s : string).

Inductive exn : Type :=
  | KeyError (k : value)
  | ValueError (v : value)
  | IndexError.

(** Result of a function that touches no process state.  [Untyped] is not a
    Python exception: it marks a dictionary some value of which lies outside
    the annotated type of its field, for which the typed [Message] below has
    no counterpart. *)
Inductive result (A : Type) : Type :=
  | Return (a : A)
  | Throw (e : exn)
  | Untyped.
Arguments Return {A} a.
Arguments Throw {A} e.
Arguments Untyped {A}.

#[global] Instance result_ret : MRet result := λ A a, Return a.
#[global] Instance result_bind : MBind result := λ A B k r,
  match r with
  | Return a => k a
  | Throw e => Throw e
  | Untyped => Untyped
  end.

(** [str(n)] for an [int]. *)
Definition str_int (z : Z) : string := NilZero.string_of_int (Z.to_int z).

(** ** message.py *)

Inductive MessageType : Type := MULTICAST | ACK.

(** [MessageType.value] *)
Definition MessageType_value (t : MessageType) : string :=
  match t with
  | MULTICAST => "multicast"
  | ACK => "ack"
  end.

(** [MessageType(v)]: the member with that value, else [ValueError]. *)
Definition MessageType_call (v : value) : result MessageType :=
  match v with
  | VStr s =>
      if decide (s = "multicast") then Return MULTICAST
      else if decide (s = "ack") then Return ACK
      else Throw (ValueError v)
  | _ => Throw (ValueError v)
  end.

Record Message : Type := mkMessage {
  msg_id : string;
  msg_type : MessageType;
  sender : string;
  timestamp : Z;
  content : option string;
  original_msg_id : option string
}.

(** [Message.__init__]: the id is derived from sender and timestamp. *)
Definition Message__init__ (ty : MessageType) (s : string) (ts : Z)
    (c : option string) (orig : option string) : Message :=
  {| msg_id := s +:+ "_" +:+ str_int ts;
     msg_type := ty;
     sender := s;
     timestamp := ts;
     content := c;
     original_msg_id := orig |}.

Definition opt_value (o : option string) : value :=
  match o with
  | Some s => VStr s
  | None => VNone
  end.

(** [Message.to_dict] *)
Definition to_dict (m : Message) : gmap string value :=
  <["msg_id" := VStr (msg_id m)]>
  (<["msg_type" := VStr (MessageType_value (msg_type m))]>
  (<["sender" := VStr (sender m)]>
  (<["timestamp" := VInt (timestamp m)]>
  (<["content" := opt_value (content m)]>
  (<["original_msg_id" := opt_value (original_msg_id m)]> ∅))))).

(** [data[k]] *)
Definition getitem (data : gmap string value) (k : string) : result value :=
  match data !! k with
  | Some v => Return v
  | None => Throw (KeyError (VStr k))
  end.

(** [data.get(k)] *)
Definition dict_get (data : gmap string value) (k : string) : value :=
  default VNone (data !! k).

Definition as_str (v : value) : result string :=
  match v with
  | VStr s => Return s
  | _ => Untyped
  end.

Definition as_int (v : value) : result Z :=
  match v with
  | VInt z => Return z
  | _ => Untyped
  end.

Definition as_opt_str (v : value) : result (option string) :=
  match v with
  | VStr s => Return (Some s)
  | VNone => Return None
  | VInt _ => Untyped
  end.

(** [Message.from_dict].  The look-ups happen in the order of the source, so
    the exception is the one Python raises; the values are given their
    annotated types only once every look-up has succeeded.  The constructor
    derives an id, which the last assignment replaces by [data['msg_id']]. *)
Definition from_dict (data : gmap string value) : result Message :=
  ty_v ← getitem data "msg_type";
  ty ← MessageType_call ty_v;
  sender_v ← getitem data "sender";
  timestamp_v ← getitem data "timestamp";
  let content_v := dict_get data "content" in
  let original_v := dict_get data "original_msg_id" in
  id_v ← getitem data "msg_id";
  s ← as_str sender_v;
  ts ← as_int timestamp_v;
  c ← as_opt_str content_v;
  orig ← as_opt_str original_v;
  let message := Message__init__ ty s ts c orig in
  i ← as_str id_v;
  Return {| msg_id := i;
            msg_type := msg_type message;
            sender := sender message;
            timestamp := timestamp message;
            content := content message;
            original_msg_id := original_msg_id message |}.

(** ** Sorting

    [sorted] and [list.sort] are stable and compare with [<] only.  A stable
    sort is determined by its input, so the insertion sort below computes
    the same list as Python's. *)

Fixpoint insert_sorted {A} (lt : A → A → bool) (x : A) (l : list A) : list A :=
  match l with
  | [] => [x]
  | y :: l' => if lt y x then y :: insert_sorted lt x l' else x :: y :: l'
  end.

Definition sorted {A} (lt : A → A → bool) (l : list A) : list A :=
  foldr (insert_sorted lt) [] l.

(** [<] on the tuples [(m.timestamp, m.sender)]: the first components that
    differ decide. *)
Definition key_lt (k1 k2 : Z * string) : bool :=
  if (k1.1 =? k2.1)%Z then String.ltb k1.2 k2.2 else (k1.1 <? k2.1)%Z.

(** [lambda m: (m.timestamp, m.sender)] *)
Definition sort_key (m : Message) : Z * string := (timestamp m, sender m).

Definition msg_lt (a b : Message) : bool := key_lt (sort_key a) (sort_key b).

(** The order the queue is kept in: [a] may stand before [b]. *)
Definition msg_le (a b : Message) : Prop := msg_lt b a = false.

(** ** process.py: the state of a process *)

(** What a method does to the world outside [self]. *)
Inductive effect : Type :=
  | Delivered (m : Message)                      (* [_deliver_message(m)] *)
  | TimerStarted (m : Message)                   (* [Timer(0.01, _send_acknowledgment, (m,))] *)
  | SentTo (p : Z) (data : gmap string value).   (* one socket of a broadcast *)

(** The attributes of [self], in the order [__init__] sets them; the server
    socket and the running flag belong to the transport and are left out. *)
Record Process : Type := mkProcess {
  proc_id : string;
  port : Z;
  other_ports : list Z;
  clock_increment : Z;
  logical_clock : Z;
  clock_lock : bool;
  message_queue : list Message;
  queue_lock : bool;
  acknowledgments : gmap string (gset string);
  ack_lock : bool;
  all_ports : list Z;
  all_processes : gset string;
  required_acks : nat;
  pending_acks : gmap (option string) (list Message);
  pending_lock : bool;
  effects : list effect
}.

Definition set_logical_clock (c : Z) (st : Process) : Process :=
  mkProcess (proc_id st) (port st) (other_ports st) (clock_increment st)
    c (clock_lock st) (message_queue st) (queue_lock st)
    (acknowledgments st) (ack_lock st) (all_ports st) (all_processes st)
    (required_acks st) (pending_acks st) (pending_lock st) (effects st).

Definition set_clock_lock (b : bool) (st : Process) : Process :=
  mkProcess (proc_id st) (port st) (other_ports st) (clock_increment st)
    (logical_clock st) b (message_queue st) (queue_lock st)
    (acknowledgments st) (ack_lock st) (all_ports st) (all_processes st)
    (required_acks st) (pending_acks st) (pending_lock st) (effects st).

Definition set_message_queue (q : list Message) (st : Process) : Process :=
  mkProcess (proc_id st) (port st) (other_ports st) (clock_increment st)
    (logical_clock st) (clock_lock st) q (queue_lock st)
    (acknowledgments st) (ack_lock st) (all_ports st) (all_processes st)
    (required_acks st) (pending_acks st) (pending_lock st) (effects st).

Definition set_queue_lock (b : bool) (st : Process) : Process :=
  mkProcess (proc_id st) (port st) (other_ports st) (clock_increment st)
    (logical_clock st) (clock_lock st) (message_queue st) b
    (acknowledgments st) (ack_lock st) (all_ports st) (all_processes st)
    (required_acks st) (pending_acks st) (pending_lock st) (effects st).

Definition set_acknowledgments (a : gmap string (gset string))
    (st : Process) : Process :=
  mkProcess (proc_id st) (port st) (other_ports st) (clock_increment st)
    (logical_clock st) (clock_lock st) (message_queue st) (queue_lock st)
    a (ack_lock st) (all_ports st) (all_processes st)
    (required_acks st) (pending_acks st) (pending_lock st) (effects st).

Definition set_ack_lock (b : bool) (st : Process) : Process :=
  mkProcess (proc_id st) (port st) (other_ports st) (clock_increment st)
    (logical_clock st) (clock_lock st) (message_queue st) (queue_lock st)
    (acknowledgments st) b (all_ports st) (all_processes st)
    (required_acks st) (pending_acks st) (pending_lock st) (effects st).

Definition set_pending_acks (p : gmap (option string) (list Message))
    (st : Process) : Process :=
  mkProcess (proc_id st) (port st) (other_ports st) (clock_increment st)
    (logical_clock st) (clock_lock st) (message_queue st) (queue_lock st)
    (acknowledgments st) (ack_lock st) (all_ports st) (all_processes st)
    (required_acks st) p (pending_lock st) (effects st).

Definition set_pending_lock (b : bool) (st : Process) : Process :=
  mkProcess (proc_id st) (port st) (other_ports st) (clock_increment st)
    (logical_clock st) (clock_lock st) (message_queue st) (queue_lock st)
    (acknowledgments st) (ack_lock st) (all_ports st) (all_processes st)
    (required_acks st) (pending_acks st) b (effects st).

Definition set_effects (e : list effect) (st : Process) : Process :=
  mkProcess (proc_id st) (port st) (other_ports st) (clock_increment st)
    (logical_clock st) (clock_lock st) (message_queue st) (queue_lock st)
    (acknowledgments st) (ack_lock st) (all_ports st) (all_processes st)
    (required_acks st) (pending_acks st) (pending_lock st) e.

(** [PORTS] of [main.py]: the keys of the table below. *)
Definition PORTS : list Z := [5000; 5001; 5002]%Z.

(** [port_to_process], the table local to [Process.__init__]. *)
Definition port_to_process : gmap Z string :=
  <[5000%Z := "processo1"]> (<[5001%Z := "processo2"]> (<[5002%Z := "processo3"]> ∅)).

(** [port_to_process[p]] *)
Definition port_name (p : Z) : result string :=
  match port_to_process !! p with
  | Some n => Return n
  | None => Throw (KeyError (VInt p))
  end.

(** [[port_to_process[p] for p in ports]]: the first missing key raises. *)
Fixpoint port_names (ports : list Z) : result (list string) :=
  match ports with
  | [] => Return []
  | p :: ports' =>
      n ← port_name p;
      ns ← port_names ports';
      Return (n :: ns)
  end.

(** [Process.__init__] *)
Definition Process__init__ (proc_id : string) (port : Z) (other_ports : list Z)
    (clock_increment : Z) : result Process :=
  let all_ports := sorted Z.ltb (port :: other_ports) in
  names ← port_names all_ports;
  let all_processes : gset string := list_to_set names in
  Return {| proc_id := proc_id;
            port := port;
            other_ports := other_ports;
            clock_increment := clock_increment;
            logical_clock := 0;
            clock_lock := false;
            message_queue := [];
            queue_lock := false;
            acknowledgments := ∅;
            ack_lock := false;
            all_ports := all_ports;
            all_processes := all_processes;
            required_acks := size all_processes;
            pending_acks := ∅;
            pending_lock := false;
            effects := [] |}.

(** ** process.py: methods as state transformers *)

(** A call returns a value, raises, or never returns (it waits for a lock
    that is held). *)
Inductive outcome (A : Type) : Type :=
  | Done (a : A) (st : Process)
  | Raised (e : exn) (st : Process)
  | Hang.
Arguments Done {A} a st.
Arguments Raised {A} e st.
Arguments Hang {A}.

Definition M (A : Type) : Type := Process → outcome A.

#[global] Instance M_ret : MRet M := λ A a st, Done a st.
#[global] Instance M_bind : MBind M := λ A B k m st,
  match m st with
  | Done a st' => k a st'
  | Raised e st' => Raised e st'
  | Hang => Hang
  end.

Definition gets {A} (f : Process → A) : M A := λ st, Done (f st) st.
Definition modify (f : Process → Process) : M unit := λ st, Done tt (f st).
Definition raise {A} (e : exn) : M A := λ st, Raised e st.

(** [with lock: body]: the lock is released when the body returns or raises. *)
Definition with_lock {A} (held : Process → bool)
    (set : bool → Process → Process) (body : M A) : M A := λ st,
  if held st then Hang
  else match body (set true st) with
       | Done a st' => Done a (set false st')
       | Raised e st' => Raised e (set false st')
       | Hang => Hang
       end.

(** [for x in l: body(x)] *)
Fixpoint for_each {A} (l : list A) (body : A → M unit) : M unit :=
  match l with
  | [] => mret tt
  | x :: l' => _ ← body x; for_each l' body
  end.

Definition increment_clock : M Z :=
  with_lock clock_lock set_clock_lock (
    _ ← modify (λ st, set_logical_clock (logical_clock st + clock_increment st) st);
    gets logical_clock).

Definition update_clock_on_receive (received_timestamp : Z) : M unit :=
  with_lock clock_lock set_clock_lock (
    modify (λ st, set_logical_clock (logical_clock st `max` received_timestamp) st)).

Definition increment_for_delivery : M Z :=
  with_lock clock_lock set_clock_lock (
    _ ← modify (λ st, set_logical_clock (logical_clock st + clock_increment st) st);
    gets logical_clock).

Definition get_clock : M Z :=
  with_lock clock_lock set_clock_lock (gets logical_clock).

(** [k in self.acknowledgments] and [self.acknowledgments[k]] for a key that
    may be [None]: the table only has string keys. *)
Definition ack_lookup (k : option string) (st : Process) : option (gset string) :=
  k' ← k; acknowledgments st !! k'.

Definition _process_acknowledgment (message : Message) : M unit :=
  _ ← update_clock_on_receive (timestamp message);
  _ ← increment_for_delivery;
  with_lock ack_lock set_ack_lock (
    entry ← gets (ack_lookup (original_msg_id message));
    match original_msg_id message, entry with
    | Some k, Some acked =>
        modify (λ st, set_acknowledgments
                        (<[k := acked ∪ {[sender message]}]> (acknowledgments st)) st)
    | _, _ =>
        with_lock pending_lock set_pending_lock (
          modify (λ st,
            let k := original_msg_id message in
            let old := default [] (pending_acks st !! k) in
            set_pending_acks (<[k := old ++ [message]]> (pending_acks st)) st))
    end).

(** [_broadcast_message]: one socket per port of the group; a failed send is
    caught and logged by the source, so the call always returns. *)
Definition _broadcast_message (message : Message) : M unit :=
  modify (λ st,
    set_effects (effects st ++ map (λ p, SentTo p (to_dict message)) (all_ports st)) st).

Definition _send_acknowledgment (original_message : Message) : M unit :=
  current_time ← increment_clock;
  me ← gets proc_id;
  let ack_message :=
    Message__init__ ACK me current_time None (Some (msg_id original_message)) in
  _broadcast_message ack_message.

Definition start_timer (message : Message) : M unit :=
  modify (λ st, set_effects (effects st ++ [TimerStarted message]) st).

Definition _process_received_message (message : Message) : M unit :=
  match msg_type message with
  | MULTICAST =>
      _ ← update_clock_on_receive (timestamp message);
      _ ← increment_for_delivery;
      _ ← with_lock queue_lock set_queue_lock (
            modify (λ st, set_message_queue
                            (sorted msg_lt (message_queue st ++ [message])) st));
      _ ← with_lock ack_lock set_ack_lock (
            modify (λ st, set_acknowledgments
                            (<[msg_id message := ∅]> (acknowledgments st)) st));
      _ ← with_lock pending_lock set_pending_lock (
            entry ← gets (λ st, pending_acks st !! Some (msg_id message));
            match entry with
            | Some pending_ack_messages =>
                _ ← modify (λ st, set_pending_acks
                                    (delete (Some (msg_id message)) (pending_acks st)) st);
                for_each pending_ack_messages _process_acknowledgment
            | None => mret tt
            end);
      start_timer message
  | ACK => _process_acknowledgment message
  end.

(** [self.message_queue.pop(0)] *)
Definition pop0 : M Message := λ st,
  match message_queue st with
  | [] => Raised IndexError st
  | m :: q => Done m (set_message_queue q st)
  end.

(** [del self.acknowledgments[k]] *)
Definition del_ack (k : string) : M unit := λ st,
  match acknowledgments st !! k with
  | Some _ => Done tt (set_acknowledgments (delete k (acknowledgments st)) st)
  | None => Raised (KeyError (VStr k)) st
  end.

Definition _deliver_message (message : Message) : M unit :=
  modify (λ st, set_effects (effects st ++ [Delivered message]) st).

Definition try_deliver_message : M bool :=
  with_lock queue_lock set_queue_lock (
    queue ← gets message_queue;
    match queue with
    | [] => mret false
    | head_message :: _ =>
        with_lock ack_lock set_ack_lock (
          entry ← gets (λ st, acknowledgments st !! msg_id head_message);
          match entry with
          | Some acked_by =>
              let acks_received := size acked_by in
              need ← gets required_acks;
              if bool_decide (need ≤ acks_received) then
                delivered_message ← pop0;
                _ ← del_ack (msg_id head_message);
                _ ← _deliver_message delivered_message;
                mret true
              else mret false
          | None => mret false
          end)
    end).

Definition send_message (content : string) : M unit :=
  current_time ← increment_clock;
  me ← gets proc_id;
  let message := Message__init__ MULTICAST me current_time (Some content) None in
  _ ← with_lock ack_lock set_ack_lock (
        modify (λ st, set_acknowledgments
                        (<[msg_id message := ∅]> (acknowledgments st)) st));
  _broadcast_message message.

(** ** Calls made on a process

    What the command loop of [main.py], the connection handlers and the
    acknowledgment timers invoke on one process. *)
Inductive call : Type :=
  | Receive (m : Message)          (* a handler decoded [m]: [_process_received_message] *)
  | TryDeliver                     (* ["deliver"]: [try_deliver_message] *)
  | SendMessage (content : string) (* ["send"]: [send_message] *)
  | AckTimer (m : Message)         (* a timer fires: [_send_acknowledgment] *)
  | Pass.                          (* ["pass"]: [increment_clock] *)

Definition run_call (c : call) : M unit :=
  match c with
  | Receive m => _process_received_message m
  | TryDeliver => _ ← try_deliver_message; mret tt
  | SendMessage content => send_message content
  | AckTimer m => _send_acknowledgment m
  | Pass => _ ← increment_clock; mret tt
  end.

Definition run_calls (cs : list call) : M unit := for_each cs run_call.

(** The states of a running process: constructed, then driven by calls. *)
Definition reachable (st : Process) : Prop :=
  ∃ pid p others inc st0 cs,
    Process__init__ pid p others inc = Return st0 ∧ run_calls cs st0 = Done tt st.

(** The three operations that write the logical clock. *)
Inductive clock_call : Type :=
  | Tick                  (* [increment_clock()] *)
  | Observe (x : Z)       (* [update_clock_on_receive(x)] *)
  | TickForDelivery.      (* [increment_for_delivery()] *)

Definition run_clock_call (c : clock_call) : M unit :=
  match c with
  | Tick => _ ← increment_clock; mret tt
  | Observe x => update_clock_on_receive x
  | TickForDelivery => _ ← increment_for_delivery; mret tt
  end.

(** ** Predicates on states *)

(** No lock is held: no other call is in progress. *)
Definition quiescent (st : Process) : Prop :=
  clock_lock st = false ∧ queue_lock st = false ∧
  ack_lock st = false ∧ pending_lock st = false.

(** Every buffered acknowledgment is filed under the id it acknowledges. *)
Definition pending_keyed (st : Process) : Prop :=
  ∀ k l, pending_acks st !! k = Some l → Forall (λ a, original_msg_id a = k) l.

(** Ascending in [(timestamp, sender)]: smaller timestamp first, and for equal
    timestamps the lexicographically smaller sender first. *)
Definition ascending (a b : Message) : Prop :=
  (timestamp a < timestamp b)%Z ∨
  (timestamp a = timestamp b ∧ String.le (sender a) (sender b)).

(** A receipt of a Multicast whose id is [k]: the call that enqueues [k]. *)
Definition enqueues (k : option string) (c : call) : Prop :=
  match c with
  | Receive m => msg_type m = MULTICAST ∧ k = Some (msg_id m)
  | _ => False
  end.

(** ** The state after a call, in closed form *)

(** The clock after [update_clock_on_receive(ts); increment_for_delivery()]. *)
Definition clock_after_receive (inc c ts : Z) : Z := (c `max` ts + inc)%Z.

(** State after [_process_acknowledgment(a)] when it returns. *)
Definition after_ack (a : Message) (st : Process) : Process :=
  let st1 :=
    set_logical_clock
      (clock_after_receive (clock_increment st) (logical_clock st) (timestamp a)) st in
  match original_msg_id a, ack_lookup (original_msg_id a) st with
  | Some k, Some acked =>
      set_acknowledgments (<[k := acked ∪ {[sender a]}]> (acknowledgments st)) st1
  | k, _ =>
      set_pending_acks
        (<[k := default [] (pending_acks st !! k) ++ [a]]> (pending_acks st)) st1
  end.

(** State after [_process_received_message(m)] for a Multicast [m]. *)
Definition after_multicast (m : Message) (st : Process) : Process :=
  let buffered := default [] (pending_acks st !! Some (msg_id m)) in
  let st1 :=
    set_logical_clock
      (clock_after_receive (clock_increment st) (logical_clock st) (timestamp m)) st in
  let st2 := set_message_queue (sorted msg_lt (message_queue st ++ [m])) st1 in
  let st3 := set_acknowledgments (<[msg_id m := ∅]> (acknowledgments st)) st2 in
  let st4 := set_pending_acks (delete (Some (msg_id m)) (pending_acks st)) st3 in
  let st5 := foldl (λ s a, after_ack a s) st4 buffered in
  set_effects (effects st ++ [TimerStarted m]) st5.

(** State after a successful [try_deliver_message()] with head [h]. *)
Definition after_delivery (h : Message) (st : Process) : Process :=
  set_effects (effects st ++ [Delivered h])
    (set_acknowledgments (delete (msg_id h) (acknowledgments st))
       (set_message_queue (tail (message_queue st)) st)).

(** Value returned by a call, if it returns. *)
Definition returned {A} (o : outcome A) : option A :=
  match o with
  | Done a _ => Some a
  | _ => None
  end.

(** State left by a call that returns. *)
Definition final {A} (o : outcome A) : option Process :=
  match o with
  | Done _ st => Some st
  | _ => None
  end.

(** State after [try_deliver_message()], delivered or not. *)
Definition after_try_deliver (st : Process) : Process :=
  match message_queue st with
  | [] => st
  | h :: _ =>
      match acknowledgments st !! msg_id h with
      | Some acked =>
          if bool_decide (required_acks st ≤ size acked) then after_delivery h st else st
      | None => st
      end
  end.

(** State after [increment_clock()]. *)
Definition after_tick (st : Process) : Process :=
  set_logical_clock (logical_clock st + clock_increment st) st.

(** State after [_broadcast_message(m)]. *)
Definition after_broadcast (m : Message) (st : Process) : Process :=
  set_effects (effects st ++ map (λ p, SentTo p (to_dict m)) (all_ports st)) st.

(** The Multicast that [send_message(content)] builds in state [st]. *)
Definition own_multicast (content : string) (st : Process) : Message :=
  Message__init__ MULTICAST (proc_id st)
    (logical_clock st + clock_increment st) (Some content) None.

(** State after [send_message(content)]. *)
Definition after_send (content : string) (st : Process) : Process :=
  let message := own_multicast content st in
  after_broadcast message
    (set_acknowledgments (<[msg_id message := ∅]> (acknowledgments st)) (after_tick st)).

(** State after [_send_acknowledgment(m)]. *)
Definition after_ack_timer (m : Message) (st : Process) : Process :=
  after_broadcast
    (Message__init__ ACK (proc_id st) (logical_clock st + clock_increment st)
       None (Some (msg_id m)))
    (after_tick st).

(** State after any call. *)
Definition after_call (c : call) (st : Process) : Process :=
  match c with
  | Receive m =>
      match msg_type m with
      | MULTICAST => after_multicast m st
      | ACK => after_ack m st
      end
  | TryDeliver => after_try_deliver st
  | SendMessage content => after_send content st
  | AckTimer m => after_ack_timer m st
  | Pass => after_tick st
  end.

(** The attributes set by [__init__] that no method assigns again. *)
Definition config (st : Process)
    : string * Z * list Z * Z * list Z * gset string * nat :=
  (proc_id st, port st, other_ports st, clock_increment st,
   all_ports st, all_processes st, required_acks st).

(** What holds of every state of a running process. *)
Definition invariant (st : Process) : Prop :=
  quiescent st ∧ pending_keyed st ∧ StronglySorted msg_le (message_queue st).

(** ** Concrete processes and messages *)

Definition p1 : Process :=
  {| proc_id := "processo1"; port := 5000; other_ports := [5001; 5002]%Z;
     clock_increment := 1; logical_clock := 0; clock_lock := false;
     message_queue := []; queue_lock := false;
     acknowledgments := ∅; ack_lock := false;
     all_ports := [5000; 5001; 5002]%Z;
     all_processes := list_to_set ["processo1"; "processo2"; "processo3"];
     required_acks := 3;
     pending_acks := ∅; pending_lock := false; effects := [] |}.

Definition hello : Message := Message__init__ MULTICAST "processo2" 1 (Some "hello") None.
Definition world : Message := Message__init__ MULTICAST "processo3" 2 (Some "world") None.
Definition ack_from (s : string) (ts : Z) (m : Message) : Message :=
  Message__init__ ACK s ts None (Some (msg_id m)).

(** Two Multicasts with the same sender and timestamp and different contents. *)
Definition tie_x : Message := Message__init__ MULTICAST "processo2" 1 (Some "x") None.
Definition tie_y : Message := Message__init__ MULTICAST "processo2" 1 (Some "y") None.

(** A wire dictionary whose id is not the one its sender and timestamp give. *)
Definition renamed : gmap string value :=
  <["msg_id" := VStr "other_7"]> (to_dict hello).

(** The state a list of calls leaves [st] in ([st] itself if a call fails). *)
Definition state_after (cs : list call) (st : Process) : Process :=
  default st (final (run_calls cs st)).

(** [hello] is queued and acknowledged by the whole group. *)
Definition hello_ready : Process :=
  state_after [Receive hello;
               Receive (ack_from "processo1" 3 hello);
               Receive (ack_from "processo2" 3 hello);
               Receive (ack_from "processo3" 3 hello)] p1.

(** [hello] is at the head with two acknowledgments of three; [world] stands
    behind it with all three. *)
Definition hello_blocked : Process :=
  state_after [Receive hello; Receive world;
               Receive (ack_from "processo1" 4 hello);
               Receive (ack_from "processo2" 4 hello);
               Receive (ack_from "processo1" 5 world);
               Receive (ack_from "processo2" 5 world);
               Receive (ack_from "processo3" 5 world)] p1.

(** Both messages are acknowledged by the whole group. *)
Definition both_ready : Process :=
  state_after [Receive (ack_from "processo3" 6 hello)] hello_blocked.

(** ** process.py: the connection handler and the queue display *)



(** [blocked_reason] of [show_queue]: empty, not at the head, or the number
    of acknowledgments still needed. *)
Inductive blocked_reason : Type :=
  | NotBlocked
  | NotAtHead
  | NeedsMore (n : Z).

(** What one line of [show_queue] prints for a queued message. *)
Record queue_row : Type := mk_queue_row {
  row_number : nat;             (* [i+1] *)
  row_message : Message;
  row_acks : nat;               (* [acks] *)
  row_needed : nat;             (* [needed] *)
  row_deliverable : bool;       (* [deliverable] is not empty *)
  row_head : bool;              (* [head_indicator] is not empty *)
  row_blocked : blocked_reason;
  row_acked_by : gset string
}.

(** What [show_queue] prints for a queue that is not empty: the rows, the
    senders buffered under each id, and whether the head can be delivered
    with the number of acknowledgments it still needs. *)
Record queue_report : Type := mk_queue_report {
  report_rows : list queue_row;
  report_pending : gmap (option string) (list string);
  report_head_ready : bool;
  report_head_needs : Z
}.

(** The body of [for i, msg in enumerate(self.message_queue)]. *)
Definition show_row (i : nat) (msg : Message) : M queue_row :=
  info ← with_lock ack_lock set_ack_lock (
    acked_by ← gets (λ st, default ∅ (acknowledgments st !! msg_id msg));
    needed ← gets required_acks;
    mret (size acked_by, needed, acked_by));
  let '(acks, needed, acked_by) := info in
  let is_head := bool_decide (i = 0) in
  let is_fully_acked := bool_decide (needed ≤ acks) in
  let blocked :=
    if negb is_head && is_fully_acked then NotAtHead
    else if is_head && negb is_fully_acked then NeedsMore (Z.of_nat needed - Z.of_nat acks)
    else NotBlocked in
  mret (mk_queue_row (i + 1) msg acks needed (is_head && is_fully_acked) is_head
          blocked acked_by).

Fixpoint show_rows (i : nat) (queue : list Message) : M (list queue_row) :=
  match queue with
  | [] => mret []
  | msg :: queue' =>
      row ← show_row i msg;
      rows ← show_rows (S i) queue';
      mret (row :: rows)
  end.

(** [show_queue]; what it prints is what this returns, [None] for the line
    that says the queue is empty. *)
Definition show_queue : M (option queue_report) :=
  with_lock queue_lock set_queue_lock (
    queue ← gets message_queue;
    match queue with
    | [] => mret None
    | head_msg :: _ =>
        rows ← show_rows 0 queue;
        pending ← with_lock pending_lock set_pending_lock (
          gets (λ st, (λ ack_list : list Message, sender <$> ack_list)
                       <$> pending_acks st));
        head_acks ← with_lock ack_lock set_ack_lock (
          gets (λ st, size (default ∅ (acknowledgments st !! msg_id head_msg))));
        needed ← gets required_acks;
        mret (Some (mk_queue_report rows pending (bool_decide (needed ≤ head_acks))
                      (Z.of_nat needed - Z.of_nat head_acks)))
    end).

(** The row [show_queue] prints for the message at index [i], in closed
    form. *)
Definition row_of (st : Process) (i : nat) (msg : Message) : queue_row :=
  let acked_by := default ∅ (acknowledgments st !! msg_id msg) in
  let acks := size acked_by in
  let needed := required_acks st in
  let is_head := bool_decide (i = 0) in
  let is_fully_acked := bool_decide (needed ≤ acks) in
  mk_queue_row (i + 1) msg acks needed (is_head && is_fully_acked) is_head
    (if negb is_head && is_fully_acked then NotAtHead
     else if is_head && negb is_fully_acked
          then NeedsMore (Z.of_nat needed - Z.of_nat acks)
          else NotBlocked)
    acked_by.

(** ** main.py: choosing a port and building the process *)

(** [PROC_NAMES] *)
Definition PROC_NAMES : gmap Z string :=
  <[5000%Z := "processo1"]> (<[5001%Z := "processo2"]> (<[5002%Z := "processo3"]> ∅)).

(** [pick_free_port]; [free p] tells whether binding port [p] succeeds. *)
Fixpoint pick_free_port (free : Z → bool) (candidates : list Z) : option Z :=
  match candidates with
  | [] => None
  | p :: candidates' => if free p then Some p else pick_free_port free candidates'
  end.

(** The increment [main] keeps: [typed] is what [int(input(...) or "1")]
    returned, [None] when it raised [ValueError]. *)
Definition chosen_increment (typed : option Z) : Z :=
  match typed with
  | Some clock_increment => if (clock_increment <=? 0)%Z then 1%Z else clock_increment
  | None => 1%Z
  end.

(** [main] up to [Process(proc_id, chosen, other_ports, clock_increment)];
    [None] is [sys.exit(1)]. *)
Definition main_process (free : Z → bool) (typed : option Z) : option (result Process) :=
  match pick_free_port free PORTS with
  | None => None
  | Some chosen =>
      Some (match PROC_NAMES !! chosen with
            | None => Throw (KeyError (VInt chosen))
            | Some proc_id =>
                let clock_increment := chosen_increment typed in
                let other_ports := filter (λ p, p ≠ chosen) PORTS in
                Process__init__ proc_id chosen other_ports clock_increment
            end)
  end.

(** The process [main] builds on port [chosen], in closed form. *)
Definition main_state (chosen : Z) (name : string) (inc : Z) : Process :=
  {| proc_id := name; port := chosen;
     other_ports := filter (λ p, p ≠ chosen) PORTS;
     clock_increment := inc; logical_clock := 0; clock_lock := false;
     message_queue := []; queue_lock := false;
     acknowledgments := ∅; ack_lock := false;
     all_ports := PORTS;
     all_processes := list_to_set ["processo1"; "processo2"; "processo3"];
     required_acks := 3;
     pending_acks := ∅; pending_lock := false; effects := [] |}.

(** ** What a run has received, delivered and sent *)

(** The messages handed to the delivery callback, oldest first. *)
Definition delivered (st : Process) : list Message :=
  omap (λ e, match e with Delivered m => Some m | _ => None end) (effects st).

(** The Multicasts among the messages a list of calls receives. *)
Definition received (cs : list call) : list Message :=
  omap (λ c, match c with
             | Receive m => match msg_type m with MULTICAST => Some m | ACK => None end
             | _ => None
             end) cs.

(** The Multicasts an acknowledgment timer was started for, oldest first. *)
Definition scheduled (st : Process) : list Message :=
  omap (λ e, match e with TimerStarted m => Some m | _ => None end) (effects st).

(** The message a call builds and broadcasts in state [st], if it does. *)
Definition originated (c : call) (st : Process) : option Message :=
  match c with
  | SendMessage content => Some (own_multicast content st)
  | AckTimer m =>
      Some (Message__init__ ACK (proc_id st) (logical_clock st + clock_increment st)
              None (Some (msg_id m)))
  | _ => None
  end.

(** The character ["_"] that [Message.__init__] puts before the timestamp. *)
Definition underscore : Ascii.ascii :=
  Ascii.Ascii true true true true true false true false.

(** Whether a character occurs in a string. *)
Fixpoint occurs (c : Ascii.ascii) (s : string) : bool :=
  match s with
  | EmptyString => false
  | String c' s' => bool_decide (c' = c) || occurs c s'
  end.

(** A process whose buffer holds, under the id of [hello], an
    acknowledgment of another message: no call leaves such a buffer. *)
Definition misfiled : Process :=
  set_pending_acks (<[Some (msg_id hello) := [ack_from "processo3" 2 world]]> ∅) p1.

(** * Properties *)

(** ** message.py *)

Lemma MessageType_call_value (t : MessageType) :
  MessageType_call (VStr (MessageType_value t)) = Return t.
Proof. by destruct t. Qed.

Lemma as_opt_str_opt_value (o : option string) :
  as_opt_str (opt_value o) = Return o.
Proof. by destruct o. Qed.

Lemma from_dict_Return (data : gmap string value) (m : Message) :
  from_dict data = Return m →
  data !! "msg_id" = Some (VStr (msg_id m)) ∧
  data !! "msg_type" = Some (VStr (MessageType_value (msg_type m))) ∧
  data !! "sender" = Some (VStr (sender m)) ∧
  data !! "timestamp" = Some (VInt (timestamp m)).
Proof.
  unfold from_dict, getitem, mbind, result_bind, mret, result_ret.
  destruct (data !! "msg_type") as [ty_v|]; [|done].
  destruct (MessageType_call ty_v) as [ty| |] eqn:Hty; [|done..].
  destruct (data !! "sender") as [[| |s]|]; try done;
    destruct (data !! "timestamp") as [[|ts|]|]; try done;
    destruct (data !! "msg_id") as [[| |i]|]; try done; simpl;
    destruct (as_opt_str (dict_get data "content")); try done; simpl;
    destruct (as_opt_str (dict_get data "original_msg_id")); try done; simpl.
  intros [= <-]; simpl. repeat split; try done.
  destruct ty_v as [| |s']; simpl in Hty; try done.
  repeat case_decide; simplify_eq; done.
Qed.

(** C9. Decoding an encoded message gives the message back, equal in all six
    fields, whatever its id; [from_dict] returns the [msg_id] stored in the
    dictionary, so a dictionary whose [msg_id] is not
    [sender + "_" + str(timestamp)] decodes to a message that keeps it. *)
Theorem from_dict_to_dict :
  (∀ m : Message, from_dict (to_dict m) = Return m) ∧
  (∀ (data : gmap string value) (m : Message),
     from_dict data = Return m → data !! "msg_id" = Some (VStr (msg_id m))) ∧
  (∃ m : Message,
     from_dict renamed = Return m ∧ msg_id m = "other_7" ∧
     msg_id m ≠ msg_id (Message__init__ (msg_type m) (sender m) (timestamp m)
                          (content m) (original_msg_id m))).
Proof.
  split; [|split].
  - intros [i ty s ts c orig].
    unfold from_dict, to_dict, getitem, dict_get; simpl.
    rewrite !lookup_insert; simpl.
    by destruct ty, c, orig.
  - intros data m H. by apply from_dict_Return in H as [? _].
  - eexists. split; [vm_compute; reflexivity|]. split; [done|]. by vm_compute.
Qed.

(** ** Sorting *)

Section sorted.
Context {A : Type} (lt : A → A → bool).

Lemma insert_sorted_Permutation (x : A) (l : list A) :
  insert_sorted lt x l ≡ₚ x :: l.
Proof.
  induction l as [|y l IH]; simpl; [done|].
  destruct (lt y x); [|done].
  rewrite IH. apply Permutation_swap.
Qed.

Lemma sorted_Permutation (l : list A) : sorted lt l ≡ₚ l.
Proof.
  induction l as [|x l IH]; simpl; [done|].
  by rewrite insert_sorted_Permutation, IH.
Qed.

Lemma elem_of_sorted (x : A) (l : list A) : x ∈ sorted lt l ↔ x ∈ l.
Proof. by rewrite sorted_Permutation. Qed.
End sorted.

(** ** Process.__init__ *)

Lemma port_to_process_None (p : Z) :
  port_to_process !! p = None ↔ p ∉ PORTS.
Proof.
  unfold port_to_process, PORTS.
  rewrite !lookup_insert_None, lookup_empty, !not_elem_of_cons.
  pose proof (not_elem_of_nil p). intuition congruence.
Qed.

Lemma port_to_process_Some (p : Z) :
  is_Some (port_to_process !! p) ↔ p ∈ PORTS.
Proof.
  rewrite <-not_eq_None_Some, port_to_process_None.
  split; [|tauto]. intros H. by destruct (decide (p ∈ PORTS)).
Qed.

Lemma port_names_Throw (ports : list Z) :
  (∃ p, p ∈ ports ∧ port_to_process !! p = None) →
  ∃ p, p ∈ ports ∧ port_to_process !! p = None ∧
       port_names ports = Throw (KeyError (VInt p)).
Proof.
  induction ports as [|q ports IH]; intros (p & Hin & Hp).
  { by apply elem_of_nil in Hin. }
  simpl. unfold port_name.
  destruct (port_to_process !! q) as [n|] eqn:Hq; simpl.
  - apply elem_of_cons in Hin as [->|Hin]; [congruence|].
    destruct IH as (p' & Hin' & Hp' & ->); [by eauto|].
    exists p'. split_and!; [by right|done..].
  - exists q. split_and!; [by left|done..].
Qed.

Lemma port_names_Return (ports : list Z) :
  (∀ p, p ∈ ports → is_Some (port_to_process !! p)) →
  ∃ names, port_names ports = Return names ∧
           Forall2 (λ p n, port_to_process !! p = Some n) ports names.
Proof.
  induction ports as [|q ports IH]; intros Hall; simpl.
  { by exists []. }
  destruct (Hall q) as [n Hn]; [by left|].
  destruct IH as (names & -> & Hnames); [intros p ?; apply Hall; by right|].
  unfold port_name. rewrite Hn. simpl. exists (n :: names). by split; [|constructor].
Qed.

Lemma Forall2_port_names_elem (ports : list Z) (names : list string) (n : string) :
  Forall2 (λ p n, port_to_process !! p = Some n) ports names →
  n ∈ names ↔ ∃ p, p ∈ ports ∧ port_to_process !! p = Some n.
Proof.
  induction 1 as [|p n' ports names Hp _ IH].
  { split; [by intros ?%elem_of_nil|by intros (? & ?%elem_of_nil & _)]. }
  rewrite elem_of_cons, IH. split.
  - intros [->|(q & ? & ?)]; [exists p|exists q]; rewrite elem_of_cons; eauto.
  - intros (q & [->|?]%elem_of_cons & Hq); [left; congruence|right; eauto].
Qed.

Lemma size_list_to_set_remove_dups (l : list string) :
  size (list_to_set l : gset string) = length (remove_dups l).
Proof.
  rewrite <-(size_list_to_set (C:=gset string) (remove_dups l));
    [|apply NoDup_remove_dups].
  f_equal. apply set_eq. intros x.
  by rewrite !elem_of_list_to_set, elem_of_remove_dups.
Qed.

(** C10. A port outside 5000, 5001, 5002 among the process's own port and
    [other_ports] makes the constructor raise [KeyError] on such a port,
    with no process built and so no effect performed; when all ports are
    among the three, the constructor returns, no effect has been performed,
    and [required_acks] is the number of distinct names the ports map to. *)
Theorem Process__init__ports (pid : string) (p : Z) (others : list Z) (inc : Z) :
  ((∃ q, q ∈ (p :: others) ∧ q ∉ PORTS) →
   ∃ q, q ∈ (p :: others) ∧ (q ∉ PORTS) ∧
        Process__init__ pid p others inc = Throw (KeyError (VInt q))) ∧
  ((∀ q, q ∈ (p :: others) → q ∈ PORTS) →
   ∃ st names,
     Process__init__ pid p others inc = Return st ∧
     effects st = [] ∧
     Forall2 (λ q n, port_to_process !! q = Some n) (p :: others) names ∧
     required_acks st = length (remove_dups names)).
Proof.
  unfold Process__init__. split.
  - intros (q & Hin & Hq).
    destruct (port_names_Throw (sorted Z.ltb (p :: others))) as (q' & Hin' & Hq' & ->).
    { exists q. by rewrite elem_of_sorted, port_to_process_None. }
    exists q'. by rewrite <-port_to_process_None, <-(elem_of_sorted Z.ltb).
  - intros Hall.
    destruct (port_names_Return (sorted Z.ltb (p :: others)))
      as (sorted_names & Hret & Hsorted).
    { intros q Hq. apply port_to_process_Some, Hall. by rewrite <-(elem_of_sorted Z.ltb). }
    destruct (port_names_Return (p :: others)) as (names & _ & Hnames).
    { intros q Hq. by apply port_to_process_Some, Hall. }
    rewrite Hret. simpl. eexists _, names. split_and!; [done..|].
    simpl. rewrite <-size_list_to_set_remove_dups. f_equal.
    apply set_eq. intros n. rewrite !elem_of_list_to_set.
    rewrite (Forall2_port_names_elem _ _ n Hsorted), (Forall2_port_names_elem _ _ n Hnames).
    by setoid_rewrite (elem_of_sorted Z.ltb).
Qed.

Lemma Process__init__p1 :
  Process__init__ "processo1" 5000 [5001; 5002]%Z 1 = Return p1.
Proof. reflexivity. Qed.

(** ** Running the methods *)

Ltac run_monad :=
  unfold mbind, M_bind, mret, M_ret, modify, gets, raise, with_lock; simpl.

(** Closes an equation between two states that differ by record eta and by
    the locks recorded free in the context. *)
Ltac same_state st :=
  destruct st; simpl in *; subst; simpl; try reflexivity.

Lemma for_each_app {A} (l1 l2 : list A) (body : A → M unit) (st : Process) :
  for_each (l1 ++ l2) body st =
  match for_each l1 body st with
  | Done _ st' => for_each l2 body st'
  | Raised e st' => Raised e st'
  | Hang => Hang
  end.
Proof.
  revert st. induction l1 as [|x l1 IH]; intros st; simpl; [done|].
  unfold mbind, M_bind. destruct (body x st); [apply IH|done..].
Qed.

(** ** The logical clock *)

Lemma increment_clock_spec (st : Process) :
  clock_lock st = false →
  increment_clock st =
  Done (logical_clock st + clock_increment st)%Z
       (set_logical_clock (logical_clock st + clock_increment st) st).
Proof. intros H. unfold increment_clock. run_monad. rewrite H. by same_state st. Qed.

Lemma increment_for_delivery_spec (st : Process) :
  clock_lock st = false →
  increment_for_delivery st =
  Done (logical_clock st + clock_increment st)%Z
       (set_logical_clock (logical_clock st + clock_increment st) st).
Proof. apply increment_clock_spec. Qed.

Lemma update_clock_on_receive_spec (x : Z) (st : Process) :
  clock_lock st = false →
  update_clock_on_receive x st =
  Done tt (set_logical_clock (logical_clock st `max` x) st).
Proof. intros H. unfold update_clock_on_receive. run_monad. rewrite H. by same_state st. Qed.

Lemma run_clock_call_spec (c : clock_call) (st : Process) :
  clock_lock st = false → (0 < clock_increment st)%Z →
  ∃ st', run_clock_call c st = Done tt st' ∧
         clock_lock st' = false ∧ clock_increment st' = clock_increment st ∧
         (logical_clock st ≤ logical_clock st')%Z.
Proof.
  intros Hlock Hinc. destruct c as [|x|]; simpl; unfold mbind, M_bind.
  - rewrite increment_clock_spec by done. eexists. split_and!; [done..|simpl; lia].
  - rewrite update_clock_on_receive_spec by done.
    eexists. split_and!; [done..|simpl; lia].
  - rewrite increment_for_delivery_spec by done.
    eexists. split_and!; [done..|simpl; lia].
Qed.

Lemma run_clock_calls_spec (cs : list clock_call) (st : Process) :
  clock_lock st = false → (0 < clock_increment st)%Z →
  ∃ st', for_each cs run_clock_call st = Done tt st' ∧
         clock_lock st' = false ∧ clock_increment st' = clock_increment st ∧
         (logical_clock st ≤ logical_clock st')%Z.
Proof.
  revert st. induction cs as [|c cs IH]; intros st Hlock Hinc; simpl.
  { exists st. by split_and!. }
  destruct (run_clock_call_spec c st) as (st1 & Hrun & Hlock1 & Hinc1 & Hle1); [done..|].
  destruct (IH st1) as (st2 & Hrun2 & Hlock2 & Hinc2 & Hle2); [congruence|lia|].
  unfold mbind, M_bind. rewrite Hrun. exists st2. split_and!; [done..|congruence|lia].
Qed.

(** C7. With a positive increment, every sequence of [increment_clock],
    [update_clock_on_receive(x)] and [increment_for_delivery] calls, for any
    arguments, returns, and the clock never goes down along it: it is at
    least its initial value after any prefix, and at least that after the
    whole sequence.  [update_clock_on_receive(x)] sets the clock to
    [max(clock, x)], which is not below the clock before. *)
Theorem logical_clock_non_decreasing (st : Process) :
  clock_lock st = false → (0 < clock_increment st)%Z →
  (∀ cs1 cs2 : list clock_call, ∃ st1 st2,
     for_each cs1 run_clock_call st = Done tt st1 ∧
     for_each (cs1 ++ cs2) run_clock_call st = Done tt st2 ∧
     (logical_clock st ≤ logical_clock st1)%Z ∧
     (logical_clock st1 ≤ logical_clock st2)%Z) ∧
  (∀ x : Z, ∃ st',
     update_clock_on_receive x st = Done tt st' ∧
     logical_clock st' = (logical_clock st `max` x)%Z ∧
     (logical_clock st ≤ logical_clock st')%Z).
Proof.
  intros Hlock Hinc. split.
  - intros cs1 cs2.
    destruct (run_clock_calls_spec cs1 st) as (st1 & Hrun1 & Hlock1 & Hinc1 & Hle1);
      [done..|].
    destruct (run_clock_calls_spec cs2 st1) as (st2 & Hrun2 & _ & _ & Hle2);
      [congruence|lia|].
    exists st1, st2. rewrite for_each_app, Hrun1. by split_and!.
  - intros x. rewrite update_clock_on_receive_spec by done.
    eexists. split_and!; [done..|simpl; lia].
Qed.

Lemma logical_clock_non_decreasing_witness :
  clock_lock p1 = false ∧ (0 < clock_increment p1)%Z ∧
  ∃ st1 st2,
    for_each [Tick; Observe 7] run_clock_call p1 = Done tt st1 ∧
    for_each ([Tick; Observe 7] ++ [Observe 3; TickForDelivery]) run_clock_call p1
      = Done tt st2 ∧
    (logical_clock p1 ≤ logical_clock st1)%Z ∧
    (logical_clock st1 ≤ logical_clock st2)%Z.
Proof.
  split; [reflexivity|]. split; [reflexivity|].
  apply (logical_clock_non_decreasing p1); reflexivity.
Defined.

(** ** Acknowledgments *)

(** [_process_acknowledgment] returns, unless it has to buffer while the
    caller already holds the pending lock. *)
Lemma _process_acknowledgment_spec (a : Message) (st : Process) :
  clock_lock st = false → ack_lock st = false →
  _process_acknowledgment a st =
  match ack_lookup (original_msg_id a) st with
  | Some _ => Done tt (after_ack a st)
  | None => if pending_lock st then Hang else Done tt (after_ack a st)
  end.
Proof.
  intros Hclock Hack. unfold _process_acknowledgment, after_ack.
  unfold mbind at 1, M_bind at 1.
  rewrite update_clock_on_receive_spec by done.
  unfold mbind at 1, M_bind at 1.
  rewrite increment_for_delivery_spec by done.
  run_monad. rewrite Hack. unfold ack_lookup, clock_after_receive; simpl.
  destruct (original_msg_id a) as [k|]; simpl.
  - destruct (acknowledgments st !! k) as [acked|]; simpl.
    + by same_state st.
    + destruct (pending_lock st) eqn:Hpending; [done|]. by same_state st.
  - destruct (pending_lock st) eqn:Hpending; [done|]. by same_state st.
Qed.

Lemma after_ack_known (a : Message) (st : Process) (k : string) (acked : gset string) :
  original_msg_id a = Some k → acknowledgments st !! k = Some acked →
  after_ack a st =
  set_acknowledgments (<[k := acked ∪ {[sender a]}]> (acknowledgments st))
    (set_logical_clock
       (clock_after_receive (clock_increment st) (logical_clock st) (timestamp a)) st).
Proof. intros Hk Hacked. unfold after_ack, ack_lookup. rewrite Hk. simpl. by rewrite Hacked. Qed.

Lemma after_ack_unknown (a : Message) (st : Process) :
  ack_lookup (original_msg_id a) st = None →
  after_ack a st =
  set_pending_acks
    (<[original_msg_id a :=
         default [] (pending_acks st !! original_msg_id a) ++ [a]]> (pending_acks st))
    (set_logical_clock
       (clock_after_receive (clock_increment st) (logical_clock st) (timestamp a)) st).
Proof. intros H. unfold after_ack. rewrite H. by destruct (original_msg_id a). Qed.

(** The buffered acknowledgments of one id, replayed in order. *)
Lemma foldl_after_ack (l : list Message) (st : Process) (k : string)
    (acked : gset string) :
  Forall (λ a, original_msg_id a = Some k) l →
  acknowledgments st !! k = Some acked →
  foldl (λ s a, after_ack a s) st l =
  set_acknowledgments
    (<[k := acked ∪ list_to_set (sender <$> l)]> (acknowledgments st))
    (set_logical_clock
       (foldl (λ c a, clock_after_receive (clock_increment st) c (timestamp a))
              (logical_clock st) l) st).
Proof.
  intros Hl. revert st acked.
  induction Hl as [|a l Ha _ IH]; intros st acked Hacked; simpl.
  - rewrite union_empty_r_L, insert_id by done. by same_state st.
  - rewrite (after_ack_known a st k acked) by done.
    erewrite IH by (simpl; apply lookup_insert_eq). simpl.
    by rewrite insert_insert_eq, <-(assoc_L (∪)).
Qed.

Lemma for_each__process_acknowledgment (l : list Message) (st : Process) (k : string) :
  clock_lock st = false → ack_lock st = false →
  Forall (λ a, original_msg_id a = Some k) l →
  is_Some (acknowledgments st !! k) →
  for_each l _process_acknowledgment st = Done tt (foldl (λ s a, after_ack a s) st l).
Proof.
  intros Hclock Hack Hl. revert st Hclock Hack.
  induction Hl as [|a l Ha _ IH]; intros st Hclock Hack [acked Hacked]; simpl; [done|].
  unfold mbind, M_bind. rewrite _process_acknowledgment_spec by done.
  unfold ack_lookup. rewrite Ha. simpl. rewrite Hacked.
  rewrite (after_ack_known a st k acked) by done.
  apply IH; simpl; [done..|]. rewrite lookup_insert_eq. eauto.
Qed.

(** ** Receiving *)

Lemma _process_received_message_multicast (m : Message) (st : Process) :
  quiescent st → pending_keyed st → msg_type m = MULTICAST →
  _process_received_message m st = Done tt (after_multicast m st).
Proof.
  intros (Hclock & Hqueue & Hack & Hpending) Hkeyed Hty.
  unfold _process_received_message, after_multicast. rewrite Hty.
  unfold mbind at 1, M_bind at 1.
  rewrite update_clock_on_receive_spec by done.
  unfold mbind at 1, M_bind at 1.
  rewrite increment_for_delivery_spec by done.
  unfold start_timer. run_monad.
  rewrite Hqueue; simpl. rewrite Hack; simpl. rewrite Hpending; simpl.
  destruct (pending_acks st !! Some (msg_id m)) as [l|] eqn:Hl; simpl.
  - pose proof (Hkeyed _ _ Hl) as Hforall.
    rewrite (for_each__process_acknowledgment l _ (msg_id m));
      [|done|done|done|simpl; rewrite lookup_insert_eq; eauto].
    rewrite !(foldl_after_ack l _ (msg_id m) ∅);
      [|done|simpl; apply lookup_insert_eq|done|simpl; apply lookup_insert_eq].
    unfold clock_after_receive. by same_state st.
  - rewrite delete_id by done. unfold clock_after_receive. by same_state st.
Qed.

Lemma _process_received_message_ack (a : Message) (st : Process) :
  quiescent st → msg_type a = ACK →
  _process_received_message a st = Done tt (after_ack a st).
Proof.
  intros (Hclock & _ & Hack & Hpending) Hty.
  unfold _process_received_message. rewrite Hty.
  rewrite _process_acknowledgment_spec, Hpending by done.
  by destruct (ack_lookup _ _).
Qed.

(** The fields of the state after a Multicast. *)
Lemma after_multicast_fields (m : Message) (st : Process) :
  pending_keyed st →
  let buffered := default [] (pending_acks st !! Some (msg_id m)) in
  after_multicast m st =
  set_effects (effects st ++ [TimerStarted m])
    (set_pending_acks (delete (Some (msg_id m)) (pending_acks st))
       (set_acknowledgments
          (<[msg_id m := list_to_set (sender <$> buffered)]> (acknowledgments st))
          (set_message_queue (sorted msg_lt (message_queue st ++ [m]))
             (set_logical_clock
                (foldl (λ c a, clock_after_receive (clock_increment st) c (timestamp a))
                   (clock_after_receive (clock_increment st) (logical_clock st)
                      (timestamp m))
                   buffered) st)))).
Proof.
  intros Hkeyed buffered. unfold after_multicast. fold buffered.
  assert (Forall (λ a, original_msg_id a = Some (msg_id m)) buffered) as Hforall.
  { unfold buffered. destruct (pending_acks st !! Some (msg_id m)) as [l|] eqn:Hl;
      simpl; [by eapply Hkeyed|constructor]. }
  rewrite (foldl_after_ack buffered _ (msg_id m) ∅);
    [|done|simpl; apply lookup_insert_eq].
  simpl. by rewrite insert_insert_eq, union_empty_l_L.
Qed.

(** ** Delivering and sending *)

Lemma try_deliver_message_spec (st : Process) :
  quiescent st →
  try_deliver_message st =
  match message_queue st with
  | [] => Done false st
  | h :: _ =>
      match acknowledgments st !! msg_id h with
      | Some acked =>
          if bool_decide (required_acks st ≤ size acked)
          then Done true (after_delivery h st)
          else Done false st
      | None => Done false st
      end
  end.
Proof.
  intros (Hclock & Hqueue & Hack & Hpending).
  unfold try_deliver_message, after_delivery, pop0, del_ack, _deliver_message.
  run_monad. rewrite Hqueue; simpl.
  destruct (message_queue st) as [|h q] eqn:Hq; simpl.
  { by same_state st. }
  rewrite Hack; simpl.
  destruct (acknowledgments st !! msg_id h) as [acked|] eqn:Hacked; simpl.
  - destruct (bool_decide (required_acks st ≤ size acked)); simpl.
    + rewrite Hq; simpl. rewrite Hacked; simpl. by same_state st.
    + by same_state st.
  - by same_state st.
Qed.

Lemma send_message_spec (content : string) (st : Process) :
  quiescent st →
  let ts := (logical_clock st + clock_increment st)%Z in
  let message := Message__init__ MULTICAST (proc_id st) ts (Some content) None in
  send_message content st =
  Done tt
    (set_effects (effects st ++ map (λ p, SentTo p (to_dict message)) (all_ports st))
       (set_acknowledgments (<[msg_id message := ∅]> (acknowledgments st))
          (set_logical_clock ts st))).
Proof.
  intros (Hclock & Hqueue & Hack & Hpending) ts message.
  unfold send_message, _broadcast_message.
  unfold mbind at 1, M_bind at 1. rewrite increment_clock_spec by done.
  run_monad. rewrite Hack; simpl. by same_state st.
Qed.

Lemma _send_acknowledgment_spec (m : Message) (st : Process) :
  quiescent st →
  let ts := (logical_clock st + clock_increment st)%Z in
  let ack := Message__init__ ACK (proc_id st) ts None (Some (msg_id m)) in
  _send_acknowledgment m st =
  Done tt
    (set_effects (effects st ++ map (λ p, SentTo p (to_dict ack)) (all_ports st))
       (set_logical_clock ts st)).
Proof.
  intros (Hclock & Hqueue & Hack & Hpending) ts ack.
  unfold _send_acknowledgment, _broadcast_message.
  unfold mbind at 1, M_bind at 1. rewrite increment_clock_spec by done.
  run_monad. by same_state st.
Qed.

(** ** The order of the queue *)

Lemma ltb_false_le (s1 s2 : string) : String.ltb s2 s1 = false ↔ String.le s1 s2.
Proof.
  unfold String.ltb, String.le, String.leb.
  rewrite (String.compare_antisym s2 s1).
  destruct (String.compare s1 s2); simpl; split; done.
Qed.

Lemma msg_le_ascending (a b : Message) : msg_le a b ↔ ascending a b.
Proof.
  unfold msg_le, msg_lt, key_lt, sort_key, ascending; simpl.
  destruct (Z.eqb_spec (timestamp b) (timestamp a)) as [Heq|Hne].
  - rewrite ltb_false_le. split; [by right|]. intros [?|[_ ?]]; [lia|done].
  - rewrite Z.ltb_ge. split; [left; lia|]. intros [?|[? _]]; lia.
Qed.

#[local] Instance ascending_trans : Transitive ascending.
Proof.
  intros a b c [Hab|[Hab Hs]] [Hbc|[Hbc Hs']]; unfold ascending; [left; lia..|].
  right. split; [lia|]. by etrans.
Qed.

#[local] Instance msg_le_trans : Transitive msg_le.
Proof. intros a b c. rewrite !msg_le_ascending. apply ascending_trans. Qed.

Lemma msg_lt_le (a b : Message) : msg_lt a b = true → msg_le a b.
Proof.
  unfold msg_le, msg_lt, key_lt, sort_key; simpl.
  destruct (Z.eqb_spec (timestamp a) (timestamp b)) as [Heq|Hne].
  - rewrite Heq, Z.eqb_refl. intros Hlt. apply ltb_false_le.
    unfold String.ltb in Hlt. unfold String.le, String.leb.
    by destruct (String.compare (sender a) (sender b)).
  - intros Hlt%Z.ltb_lt.
    destruct (Z.eqb_spec (timestamp b) (timestamp a)); [lia|]. apply Z.ltb_ge. lia.
Qed.

Lemma msg_le_both (a b : Message) : msg_le a b → msg_le b a → sort_key a = sort_key b.
Proof.
  rewrite !msg_le_ascending. unfold sort_key.
  intros [?|[Hts Hs]] [?|[Hts' Hs']]; try lia.
  f_equal; [done|]. by apply (anti_symm String.le).
Qed.

Lemma insert_sorted_StronglySorted (x : Message) (l : list Message) :
  StronglySorted msg_le l → StronglySorted msg_le (insert_sorted msg_lt x l).
Proof.
  induction 1 as [|y l Hl IH Hy]; simpl.
  { repeat constructor. }
  destruct (msg_lt y x) eqn:Hlt.
  - constructor; [done|].
    rewrite (insert_sorted_Permutation msg_lt x l).
    constructor; [by apply msg_lt_le|done].
  - constructor; [by constructor|].
    constructor; [done|].
    eapply Forall_impl; [exact Hy|]. intros z Hz. by trans y.
Qed.

Lemma sorted_StronglySorted (l : list Message) :
  StronglySorted msg_le (sorted msg_lt l).
Proof.
  induction l as [|x l IH]; simpl; [constructor|].
  by apply insert_sorted_StronglySorted.
Qed.

Lemma StronglySorted_ascending (l : list Message) :
  StronglySorted msg_le l ↔ StronglySorted ascending l.
Proof.
  induction l as [|x l IH]; [split; constructor|].
  rewrite !StronglySorted_cons, IH.
  split; (intros [Hx Hl]; split; [|done]);
    (eapply Forall_impl; [exact Hx|]); intros y; apply msg_le_ascending.
Qed.

Lemma NoDup_sort_key_inj (l : list Message) (a b : Message) :
  NoDup (sort_key <$> l) → a ∈ l → b ∈ l → sort_key a = sort_key b → a = b.
Proof.
  induction l as [|x l IH]; simpl; [by intros _ ?%elem_of_nil|].
  rewrite NoDup_cons. intros [Hx Hl] Ha Hb Hkey.
  apply elem_of_cons in Ha as [->|Ha], Hb as [->|Hb]; [done| | |by apply IH].
  - destruct Hx. rewrite Hkey. by apply list_elem_of_fmap_2.
  - destruct Hx. rewrite <-Hkey. by apply list_elem_of_fmap_2.
Qed.

(** Two sorted queues holding the same messages, no two of which share
    [(timestamp, sender)], are the same list. *)
Lemma sorted_queue_unique (q1 q2 : list Message) :
  StronglySorted msg_le q1 → StronglySorted msg_le q2 →
  NoDup (sort_key <$> q1) → NoDup (sort_key <$> q2) →
  (∀ m, m ∈ q1 ↔ m ∈ q2) → q1 = q2.
Proof.
  intros Hs1 Hs2 Hd1 Hd2 Hsame.
  apply (StronglySorted_unique_strong msg_le); [|done..|].
  - intros a b Ha Hb Hab Hba.
    apply (NoDup_sort_key_inj q1); [done..|by apply Hsame|by apply msg_le_both].
  - apply NoDup_Permutation; [by eapply NoDup_fmap_1..|done].
Qed.

(** ** Every call returns, and keeps the invariant *)

Lemma ack_lookup_Some (ko : option string) (st : Process) (acked : gset string) :
  ack_lookup ko st = Some acked ↔
  ∃ k, ko = Some k ∧ acknowledgments st !! k = Some acked.
Proof.
  unfold ack_lookup. destruct ko as [k|]; simpl.
  - split; [by eauto|]. by intros (? & [= <-] & ?).
  - split; [done|]. by intros (? & ? & _).
Qed.

(** One of the two shapes of the state after an acknowledgment. *)
Lemma after_ack_cases (a : Message) (st : Process) :
  (∃ k acked,
     original_msg_id a = Some k ∧ acknowledgments st !! k = Some acked ∧
     after_ack a st =
     set_acknowledgments (<[k := acked ∪ {[sender a]}]> (acknowledgments st))
       (set_logical_clock
          (clock_after_receive (clock_increment st) (logical_clock st) (timestamp a))
          st)) ∨
  (ack_lookup (original_msg_id a) st = None ∧
   after_ack a st =
   set_pending_acks
     (<[original_msg_id a :=
          default [] (pending_acks st !! original_msg_id a) ++ [a]]> (pending_acks st))
     (set_logical_clock
        (clock_after_receive (clock_increment st) (logical_clock st) (timestamp a))
        st)).
Proof.
  destruct (ack_lookup (original_msg_id a) st) as [acked|] eqn:Hlookup.
  - apply ack_lookup_Some in Hlookup as (k & Hk & Hacked).
    left. exists k, acked. split_and!; [done..|]. by apply after_ack_known.
  - right. split; [done|]. by apply after_ack_unknown.
Qed.

Lemma run_call_spec (c : call) (st : Process) :
  quiescent st → pending_keyed st → run_call c st = Done tt (after_call c st).
Proof.
  intros Hq Hkeyed. destruct c as [m| |content|m|]; simpl.
  - destruct (msg_type m) eqn:Hty.
    + by apply _process_received_message_multicast.
    + by apply _process_received_message_ack.
  - unfold mbind, M_bind, after_try_deliver.
    rewrite try_deliver_message_spec by done.
    destruct (message_queue st) as [|h q]; [done|].
    destruct (acknowledgments st !! msg_id h) as [acked|]; [|done].
    by destruct (bool_decide _).
  - by rewrite send_message_spec.
  - by rewrite _send_acknowledgment_spec.
  - unfold mbind, M_bind. destruct Hq as [Hclock _].
    by rewrite increment_clock_spec.
Qed.

Lemma after_ack_invariant (a : Message) (st : Process) :
  invariant st → invariant (after_ack a st).
Proof.
  intros (Hq & Hkeyed & Hsorted).
  destruct (after_ack_cases a st) as [(k & acked & _ & _ & ->)|[_ ->]].
  - by split_and!.
  - split_and!; [done| |done].
    intros k l. simpl. rewrite lookup_insert. case_decide as Hk.
    + intros [= <-]. apply Forall_app. split; [|by repeat constructor].
      destruct (pending_acks st !! original_msg_id a) as [old|] eqn:Hold; simpl.
      * rewrite <-Hk. by eapply Hkeyed.
      * constructor.
    + apply Hkeyed.
Qed.

Lemma after_multicast_invariant (m : Message) (st : Process) :
  invariant st → invariant (after_multicast m st).
Proof.
  intros (Hq & Hkeyed & Hsorted). rewrite after_multicast_fields by done.
  split_and!; [done| |simpl; apply sorted_StronglySorted].
  intros k l. simpl. rewrite lookup_delete. case_decide; [done|]. apply Hkeyed.
Qed.

Lemma after_call_invariant (c : call) (st : Process) :
  invariant st → invariant (after_call c st).
Proof.
  intros Hinv. destruct c as [m| |content|m|]; simpl.
  - destruct (msg_type m);
      [by apply after_multicast_invariant|by apply after_ack_invariant].
  - destruct Hinv as (Hq & Hkeyed & Hsorted). unfold after_try_deliver.
    destruct (message_queue st) as [|h q] eqn:Hqueue; [by rewrite <-Hqueue in Hsorted|].
    destruct (acknowledgments st !! msg_id h) as [acked|];
      [|by rewrite <-Hqueue in Hsorted].
    destruct (bool_decide _); [|by rewrite <-Hqueue in Hsorted].
    split_and!; [done..|]. simpl. rewrite Hqueue. simpl.
    by apply StronglySorted_cons in Hsorted as [_ ?].
  - by destruct Hinv as (Hq & Hkeyed & Hsorted).
  - by destruct Hinv as (Hq & Hkeyed & Hsorted).
  - by destruct Hinv as (Hq & Hkeyed & Hsorted).
Qed.

Lemma run_calls_spec (cs : list call) (st : Process) :
  invariant st →
  run_calls cs st = Done tt (foldl (λ s c, after_call c s) st cs) ∧
  invariant (foldl (λ s c, after_call c s) st cs).
Proof.
  revert st. induction cs as [|c cs IH]; intros st Hinv; simpl; [done|].
  unfold run_calls; simpl. unfold mbind, M_bind.
  rewrite run_call_spec by apply Hinv.
  apply IH. by apply after_call_invariant.
Qed.

Lemma Process__init__invariant (pid : string) (p : Z) (others : list Z) (inc : Z)
    (st : Process) :
  Process__init__ pid p others inc = Return st → invariant st.
Proof.
  unfold Process__init__.
  destruct (port_names _) as [names| |]; simpl; [|done..].
  intros [= <-]. split_and!; [done| |constructor].
  intros k l. simpl. by rewrite lookup_empty.
Qed.

Lemma reachable_invariant (st : Process) : reachable st → invariant st.
Proof.
  intros (pid & p & others & inc & st0 & cs & Hinit & Hrun).
  apply Process__init__invariant in Hinit.
  destruct (run_calls_spec cs st0 Hinit) as [Hrun' Hinv].
  rewrite Hrun in Hrun'. by injection Hrun' as ->.
Qed.

Lemma reachable_after_call (c : call) (st : Process) :
  reachable st → reachable (after_call c st).
Proof.
  intros Hreach. pose proof (reachable_invariant st Hreach) as (Hq & Hkeyed & _).
  destruct Hreach as (pid & p & others & inc & st0 & cs & Hinit & Hrun).
  exists pid, p, others, inc, st0, (cs ++ [c]). split; [done|].
  unfold run_calls in *. rewrite for_each_app, Hrun. simpl.
  unfold mbind, M_bind. by rewrite run_call_spec.
Qed.

Lemma reachable_p1 : reachable p1.
Proof. by exists "processo1", 5000%Z, [5001; 5002]%Z, 1%Z, p1, []. Qed.

(** ** Delivery *)

Lemma try_deliver_message_True (st : Process) :
  quiescent st →
  returned (try_deliver_message st) = Some true ↔
  ∃ h q acked,
    message_queue st = h :: q ∧
    acknowledgments st !! msg_id h = Some acked ∧
    required_acks st ≤ size acked.
Proof.
  intros Hq. rewrite try_deliver_message_spec by done.
  destruct (message_queue st) as [|h q].
  { split; [done|]. by intros (? & ? & ? & ? & _). }
  destruct (acknowledgments st !! msg_id h) as [acked|] eqn:Hacked.
  - case_bool_decide as Hsize; simpl.
    + split; [|done]. intros _. by exists h, q, acked.
    + split; [done|]. intros (? & ? & ? & [= <- <-] & Hacked' & ?).
      rewrite Hacked in Hacked'. injection Hacked' as <-. lia.
  - split; [done|]. intros (? & ? & ? & [= <- <-] & Hacked' & _). congruence.
Qed.

(** C1. With no lock held, [try_deliver_message] returns a boolean, and it
    returns [True] exactly when the queue is not empty, the table has an
    entry for the id of the head, and that entry holds at least
    [required_acks] senders.  A successful call delivers the head and nothing
    else, a failed call changes nothing; the result is the same for any
    other messages behind the head and any other entries of the table, so a
    message behind the head is not delivered whatever its acknowledgments;
    and a head without an entry is not delivered. *)
Theorem try_deliver_message_head_only (st : Process) :
  quiescent st →
  (∃ b st', try_deliver_message st = Done b st') ∧
  (returned (try_deliver_message st) = Some true ↔
   ∃ h q acked,
     message_queue st = h :: q ∧
     acknowledgments st !! msg_id h = Some acked ∧
     required_acks st ≤ size acked) ∧
  (∀ st', try_deliver_message st = Done true st' →
     ∃ h, message_queue st = h :: message_queue st' ∧
          effects st' = effects st ++ [Delivered h]) ∧
  (∀ st', try_deliver_message st = Done false st' → st' = st) ∧
  (∀ h q q' acks,
     message_queue st = h :: q →
     acks !! msg_id h = acknowledgments st !! msg_id h →
     returned (try_deliver_message
                 (set_acknowledgments acks (set_message_queue (h :: q') st)))
     = returned (try_deliver_message st)) ∧
  (∀ h q,
     message_queue st = h :: q → acknowledgments st !! msg_id h = None →
     try_deliver_message st = Done false st).
Proof.
  intros Hq. pose proof (try_deliver_message_spec st Hq) as Hspec.
  split_and!.
  - rewrite Hspec. destruct (message_queue st) as [|h q]; [by eauto|].
    destruct (acknowledgments st !! msg_id h) as [acked|]; [|by eauto].
    destruct (bool_decide _); eauto.
  - by apply try_deliver_message_True.
  - intros st'. rewrite Hspec. destruct (message_queue st) as [|h q] eqn:Hqueue; [done|].
    destruct (acknowledgments st !! msg_id h) as [acked|]; [|done].
    destruct (bool_decide _); [|done].
    intros [= <-]. exists h. simpl. by rewrite Hqueue.
  - intros st'. rewrite Hspec. destruct (message_queue st) as [|h q]; [congruence|].
    destruct (acknowledgments st !! msg_id h) as [acked|]; [|congruence].
    destruct (bool_decide _); [done|congruence].
  - intros h q q' acks Hqueue Hacks.
    rewrite Hspec, try_deliver_message_spec by done. simpl.
    rewrite Hqueue, Hacks.
    destruct (acknowledgments st !! msg_id h) as [acked|]; [|done].
    by destruct (bool_decide _).
  - intros h q Hqueue Hacked. by rewrite Hspec, Hqueue, Hacked.
Qed.

Lemma try_deliver_message_head_only_witness :
  quiescent hello_blocked ∧
  ∃ b st', try_deliver_message hello_blocked = Done b st'.
Proof.
  assert (quiescent hello_blocked) as Hq by (by vm_compute).
  split; [exact Hq|]. apply (try_deliver_message_head_only hello_blocked Hq).
Defined.

(** C4. With no lock held, [try_deliver_message] on an empty queue, or on a
    head whose entry is absent or holds fewer than [required_acks] senders,
    returns [False]: it does not raise, and the state it leaves is the state
    it was called in, so the queue, the table, the buffer and the clock are
    unchanged. *)
Theorem try_deliver_message_not_ready (st : Process) :
  quiescent st →
  (message_queue st = [] ∨
   ∃ h q, message_queue st = h :: q ∧
          (acknowledgments st !! msg_id h = None ∨
           ∃ acked, acknowledgments st !! msg_id h = Some acked ∧
                    size acked < required_acks st)) →
  try_deliver_message st = Done false st.
Proof.
  intros Hq Hnot. rewrite try_deliver_message_spec by done.
  destruct Hnot as [->|(h & q & -> & [->|(acked & -> & Hsize)])]; [done..|].
  case_bool_decide; [lia|done].
Qed.

Lemma try_deliver_message_not_ready_witness :
  try_deliver_message hello_blocked = Done false hello_blocked.
Proof.
  apply (try_deliver_message_not_ready hello_blocked); [by vm_compute|].
  right. exists hello, [world]. split; [vm_compute; reflexivity|].
  right. exists {["processo1"; "processo2"]}. split; [vm_compute; reflexivity|].
  vm_compute. lia.
Defined.

(** C5. With no lock held, a successful [try_deliver_message] pops the head
    of the queue and leaves the rest in order, deletes the entry of the
    head's id, which existed, and no other entry, hands the head to the
    delivery callback once, and leaves the buffer, the clock and
    [required_acks] as they were; no lock is held afterwards, and the next
    call succeeds exactly when the new head has an entry, in the table
    without the deleted one, of at least [required_acks] senders. *)
Theorem try_deliver_message_success (st st' : Process) :
  quiescent st →
  try_deliver_message st = Done true st' →
  ∃ h q,
    message_queue st = h :: q ∧
    message_queue st' = q ∧
    is_Some (acknowledgments st !! msg_id h) ∧
    acknowledgments st' = delete (msg_id h) (acknowledgments st) ∧
    acknowledgments st' !! msg_id h = None ∧
    (∀ k, k ≠ msg_id h → acknowledgments st' !! k = acknowledgments st !! k) ∧
    pending_acks st' = pending_acks st ∧
    logical_clock st' = logical_clock st ∧
    required_acks st' = required_acks st ∧
    effects st' = effects st ++ [Delivered h] ∧
    quiescent st' ∧
    (returned (try_deliver_message st') = Some true ↔
     ∃ h2 q2 acked,
       q = h2 :: q2 ∧
       delete (msg_id h) (acknowledgments st) !! msg_id h2 = Some acked ∧
       required_acks st ≤ size acked).
Proof.
  intros Hq. rewrite try_deliver_message_spec by done.
  destruct (message_queue st) as [|h q] eqn:Hqueue; [done|].
  destruct (acknowledgments st !! msg_id h) as [acked|] eqn:Hacked; [|done].
  destruct (bool_decide _); [|done].
  intros [= <-]. exists h, q.
  assert (quiescent (after_delivery h st)) as Hq' by done.
  split_and!; try done.
  - simpl. by rewrite Hqueue.
  - simpl. apply lookup_delete_eq.
  - intros k Hk. simpl. by apply lookup_delete_ne.
  - rewrite try_deliver_message_True by done. simpl. by rewrite Hqueue.
Qed.

Lemma try_deliver_message_success_witness :
  ∃ h q,
    message_queue both_ready = h :: q ∧
    message_queue (state_after [TryDeliver] both_ready) = q.
Proof.
  destruct (try_deliver_message_success both_ready (state_after [TryDeliver] both_ready))
    as (h & q & Hqueue & Hqueue' & _);
    [by vm_compute|vm_compute; reflexivity|].
  exists h, q. split; assumption.
Defined.

(** ** Reachable states *)

Lemma state_after_spec (cs : list call) (st : Process) :
  invariant st → state_after cs st = foldl (λ s c, after_call c s) st cs.
Proof.
  intros Hinv. unfold state_after.
  by destruct (run_calls_spec cs st Hinv) as [-> _].
Qed.

Lemma reachable_state_after (cs : list call) (st : Process) :
  reachable st → reachable (state_after cs st).
Proof.
  intros Hreach. rewrite state_after_spec by by apply reachable_invariant.
  revert st Hreach. induction cs as [|c cs IH]; intros st Hreach; simpl; [done|].
  by apply IH, reachable_after_call.
Qed.

Lemma reachable_receive_multicast (m : Message) (st : Process) :
  reachable st → msg_type m = MULTICAST →
  _process_received_message m st = Done tt (after_multicast m st) ∧
  reachable (after_multicast m st).
Proof.
  intros Hreach Hty. pose proof (reachable_invariant st Hreach) as (Hq & Hkeyed & _).
  split; [by apply _process_received_message_multicast|].
  pose proof (reachable_after_call (Receive m) st Hreach) as Hreach'.
  simpl in Hreach'. by rewrite Hty in Hreach'.
Qed.

(** ** The order of the queue is the same at every process *)

Lemma tie_queues :
  run_calls [Receive tie_x; Receive tie_y] p1
    = Done tt (state_after [Receive tie_x; Receive tie_y] p1) ∧
  run_calls [Receive tie_y; Receive tie_x] p1
    = Done tt (state_after [Receive tie_y; Receive tie_x] p1) ∧
  message_queue (state_after [Receive tie_x; Receive tie_y] p1) = [tie_x; tie_y] ∧
  message_queue (state_after [Receive tie_y; Receive tie_x] p1) = [tie_y; tie_x].
Proof. split_and!; vm_compute; reflexivity. Qed.

(** C2, as stated, fails: a process that receives [tie_x] then [tie_y], two
    Multicasts of one sender and one timestamp, queues them in that order,
    and a process that receives them the other way round queues them the
    other way round, though both queues hold the same two messages. *)
Lemma queue_order_counterexample :
  ¬ (∀ st1 st2 : Process,
       reachable st1 → reachable st2 →
       (∀ m, m ∈ message_queue st1 ↔ m ∈ message_queue st2) →
       message_queue st1 = message_queue st2).
Proof.
  intros Hclaim. destruct tie_queues as (_ & _ & Hxy & Hyx).
  specialize (Hclaim (state_after [Receive tie_x; Receive tie_y] p1)
                     (state_after [Receive tie_y; Receive tie_x] p1)).
  rewrite Hxy, Hyx in Hclaim.
  assert ([tie_x; tie_y] = [tie_y; tie_x]) as Heq; [|discriminate Heq].
  apply Hclaim; [apply reachable_state_after, reachable_p1..|].
  intros m. rewrite !elem_of_cons. pose proof (not_elem_of_nil m). tauto.
Qed.

(** C2, amended. Two running processes whose queues hold the same messages,
    no two entries of a queue sharing [(timestamp, sender)], hold them in
    the same order; and receiving a Multicast returns and leaves the queue,
    the old entries and the new one, sorted ascending by timestamp, with the
    lexicographic order of the senders deciding between equal timestamps. *)
Theorem queue_order_deterministic :
  (∀ st1 st2 : Process,
     reachable st1 → reachable st2 →
     NoDup (sort_key <$> message_queue st1) →
     NoDup (sort_key <$> message_queue st2) →
     (∀ m, m ∈ message_queue st1 ↔ m ∈ message_queue st2) →
     message_queue st1 = message_queue st2) ∧
  (∀ (st : Process) (m : Message),
     reachable st → msg_type m = MULTICAST →
     ∃ st', _process_received_message m st = Done tt st' ∧
            message_queue st' ≡ₚ m :: message_queue st ∧
            StronglySorted ascending (message_queue st')).
Proof.
  split.
  - intros st1 st2 (_ & _ & Hs1)%reachable_invariant (_ & _ & Hs2)%reachable_invariant.
    by apply sorted_queue_unique.
  - intros st m Hreach Hty.
    destruct (reachable_receive_multicast m st) as [Hrun Hreach']; [done..|].
    exists (after_multicast m st). split; [done|].
    apply reachable_invariant in Hreach as (_ & Hkeyed & _).
    apply reachable_invariant in Hreach' as (_ & _ & Hsorted).
    split; [|by apply StronglySorted_ascending].
    rewrite after_multicast_fields by done. simpl.
    rewrite sorted_Permutation. by rewrite Permutation_app_comm.
Qed.

Lemma queue_order_deterministic_witness :
  message_queue (state_after [Receive hello; Receive world] p1)
  = message_queue (state_after [Receive world; Receive hello] p1).
Proof.
  apply (proj1 queue_order_deterministic).
  - apply reachable_state_after, reachable_p1.
  - apply reachable_state_after, reachable_p1.
  - apply (bool_decide_unpack _). vm_compute. exact I.
  - apply (bool_decide_unpack _). vm_compute. exact I.
  - intros m.
    replace (message_queue (state_after [Receive hello; Receive world] p1))
      with [hello; world] by (vm_compute; reflexivity).
    replace (message_queue (state_after [Receive world; Receive hello] p1))
      with [hello; world] by (vm_compute; reflexivity).
    reflexivity.
Defined.

(** ** Acknowledgments that arrive before their message *)

Lemma reachable__process_acknowledgment (a : Message) (st : Process) :
  reachable st → _process_acknowledgment a st = Done tt (after_ack a st).
Proof.
  intros ((Hclock & _ & Hack & Hpending) & _ & _)%reachable_invariant.
  rewrite _process_acknowledgment_spec, Hpending by done.
  by destruct (ack_lookup _ _).
Qed.

Lemma after_ack_buffered (a : Message) (st : Process) :
  ack_lookup (original_msg_id a) st = None →
  pending_acks (after_ack a st)
  = <[original_msg_id a :=
        default [] (pending_acks st !! original_msg_id a) ++ [a]]> (pending_acks st) ∧
  acknowledgments (after_ack a st) = acknowledgments st.
Proof. intros Hnone. by rewrite after_ack_unknown. Qed.

(** C3. In a running process, an acknowledgment whose [original_msg_id] has
    no entry in the table is appended to the buffer under that id, and the
    table is left as it was.  When a Multicast is then received whose id has
    a buffer entry, the call returns; the entry of that id in the table is
    the set of the senders of the buffered acknowledgments, each of them and
    nothing else, so a sender buffered twice counts once; the buffer entry
    is gone; and the clock has gone through the receive rule once for the
    Multicast and then once for each buffered acknowledgment, in order. *)
Theorem pending_acks_replayed_once :
  (∀ (st : Process) (a : Message),
     reachable st → ack_lookup (original_msg_id a) st = None →
     ∃ st', _process_acknowledgment a st = Done tt st' ∧
            pending_acks st'
            = <[original_msg_id a :=
                  default [] (pending_acks st !! original_msg_id a) ++ [a]]>
                (pending_acks st) ∧
            acknowledgments st' = acknowledgments st) ∧
  (∀ (st : Process) (m : Message) (l : list Message),
     reachable st → msg_type m = MULTICAST →
     pending_acks st !! Some (msg_id m) = Some l →
     ∃ st', _process_received_message m st = Done tt st' ∧
            acknowledgments st'
            = <[msg_id m := list_to_set (sender <$> l)]> (acknowledgments st) ∧
            (∀ s, s ∈ (list_to_set (sender <$> l) : gset string) ↔
                  ∃ a, a ∈ l ∧ sender a = s) ∧
            pending_acks st' = delete (Some (msg_id m)) (pending_acks st) ∧
            pending_acks st' !! Some (msg_id m) = None ∧
            logical_clock st'
            = foldl (λ c a, clock_after_receive (clock_increment st) c (timestamp a))
                (clock_after_receive (clock_increment st) (logical_clock st)
                   (timestamp m))
                l).
Proof.
  split.
  - intros st a Hreach Hnone. exists (after_ack a st).
    split; [by apply reachable__process_acknowledgment|].
    by apply after_ack_buffered.
  - intros st m l Hreach Hty Hl.
    destruct (reachable_receive_multicast m st) as [Hrun _]; [done..|].
    apply reachable_invariant in Hreach as (_ & Hkeyed & _).
    exists (after_multicast m st). split; [done|].
    rewrite after_multicast_fields by done. rewrite Hl. simpl.
    split_and!; [done| |done|apply lookup_delete_eq|done].
    intros s. rewrite elem_of_list_to_set, list_elem_of_fmap.
    split; [intros (a & -> & Ha)|intros (a & Ha & <-)]; by exists a.
Qed.

Lemma pending_acks_replayed_once_witness :
  ∃ st',
    _process_received_message hello
      (state_after [Receive (ack_from "processo2" 2 hello);
                    Receive (ack_from "processo3" 2 hello);
                    Receive (ack_from "processo2" 4 hello)] p1) = Done tt st' ∧
    acknowledgments st' !! msg_id hello = Some {["processo2"; "processo3"]} ∧
    pending_acks st' !! Some (msg_id hello) = None.
Proof.
  destruct (proj2 pending_acks_replayed_once
              (state_after [Receive (ack_from "processo2" 2 hello);
                            Receive (ack_from "processo3" 2 hello);
                            Receive (ack_from "processo2" 4 hello)] p1)
              hello
              [ack_from "processo2" 2 hello; ack_from "processo3" 2 hello;
               ack_from "processo2" 4 hello])
    as (st' & Hrun & Hacks & _ & _ & Hpending & _).
  - apply reachable_state_after, reachable_p1.
  - reflexivity.
  - vm_compute. reflexivity.
  - exists st'. split; [exact Hrun|]. split; [|exact Hpending].
    rewrite Hacks, lookup_insert_eq. vm_compute. reflexivity.
Defined.

(** ** Receiving a Multicast resets its entry *)

Lemma after_multicast_overwrites (m : Message) (st : Process) (acked : gset string) :
  pending_keyed st →
  after_multicast m
    (set_acknowledgments (<[msg_id m := acked]> (acknowledgments st)) st)
  = after_multicast m st.
Proof.
  intros Hkeyed. rewrite !after_multicast_fields by done. simpl.
  by rewrite insert_insert_eq.
Qed.

(** C6. In a running process, receiving a Multicast [m] leaves the same state
    whatever set the table held for [m.id] before: the old entry is
    overwritten.  When nothing is buffered for [m.id], the entry left is the
    empty set.  So for a process that sends a message, records an
    acknowledgment for it and then receives its own broadcast, the entry is
    empty after [send_message], holds the acknowledging sender after the
    acknowledgment, and is empty again after the receipt. *)
Theorem receive_resets_acknowledgments :
  (∀ (st : Process) (m : Message) (acked : gset string),
     reachable st → msg_type m = MULTICAST →
     _process_received_message m
       (set_acknowledgments (<[msg_id m := acked]> (acknowledgments st)) st)
     = _process_received_message m st) ∧
  (∀ (st : Process) (m : Message),
     reachable st → msg_type m = MULTICAST →
     pending_acks st !! Some (msg_id m) = None →
     ∃ st', _process_received_message m st = Done tt st' ∧
            acknowledgments st' = <[msg_id m := ∅]> (acknowledgments st)) ∧
  (∀ (st : Process) (content : string) (a : Message),
     reachable st →
     let m := own_multicast content st in
     original_msg_id a = Some (msg_id m) →
     pending_acks st !! Some (msg_id m) = None →
     ∃ st1 st2 st3,
       send_message content st = Done tt st1 ∧
       acknowledgments st1 !! msg_id m = Some ∅ ∧
       _process_acknowledgment a st1 = Done tt st2 ∧
       acknowledgments st2 !! msg_id m = Some {[sender a]} ∧
       _process_received_message m st2 = Done tt st3 ∧
       acknowledgments st3 !! msg_id m = Some ∅).
Proof.
  split_and!.
  - intros st m acked Hreach Hty.
    apply reachable_invariant in Hreach as (Hq & Hkeyed & _).
    rewrite !_process_received_message_multicast by done.
    by rewrite after_multicast_overwrites.
  - intros st m Hreach Hty Hnone.
    destruct (reachable_receive_multicast m st) as [Hrun _]; [done..|].
    apply reachable_invariant in Hreach as (_ & Hkeyed & _).
    exists (after_multicast m st). split; [done|].
    rewrite after_multicast_fields by done. by rewrite Hnone.
  - intros st content a Hreach m Horig Hnone.
    pose proof (reachable_invariant _ Hreach) as Hinv.
    pose proof (after_call_invariant (SendMessage content) st Hinv) as Hinv1.
    pose proof (after_ack_invariant a _ Hinv1) as Hinv2.
    simpl in Hinv1, Hinv2.
    assert (after_ack a (after_send content st)
            = set_acknowledgments
                (<[msg_id m := ∅ ∪ {[sender a]}]>
                   (acknowledgments (after_send content st)))
                (set_logical_clock
                   (clock_after_receive (clock_increment (after_send content st))
                      (logical_clock (after_send content st)) (timestamp a))
                   (after_send content st))) as Hacked.
    { apply after_ack_known; [done|]. simpl. apply lookup_insert_eq. }
    exists (after_send content st), (after_ack a (after_send content st)),
      (after_multicast m (after_ack a (after_send content st))).
    split_and!.
    + rewrite send_message_spec by apply Hinv. done.
    + simpl. apply lookup_insert_eq.
    + destruct Hinv1 as ((Hclock & _ & Hack & Hpending) & _ & _).
      rewrite _process_acknowledgment_spec, Hpending by done.
      by destruct (ack_lookup _ _).
    + rewrite Hacked. simpl. by rewrite lookup_insert_eq, union_empty_l_L.
    + by apply _process_received_message_multicast; [apply Hinv2..|].
    + rewrite after_multicast_fields by apply Hinv2.
      assert (pending_acks (after_ack a (after_send content st)) = pending_acks st)
        as -> by by rewrite Hacked.
      rewrite Hnone. apply lookup_insert_eq.
Qed.


Lemma receive_resets_acknowledgments_witness :
  ∃ st', _process_received_message hello p1 = Done tt st' ∧
         acknowledgments st' = <[msg_id hello := ∅]> (acknowledgments p1).
Proof.
  apply (proj1 (proj2 receive_resets_acknowledgments) p1 hello).
  - apply reachable_p1.
  - reflexivity.
  - vm_compute. reflexivity.
Defined.

(** ** Acknowledgments that arrive after delivery *)

Lemma try_deliver_message_Done_true (st st' : Process) :
  quiescent st → try_deliver_message st = Done true st' →
  ∃ h q acked,
    message_queue st = h :: q ∧
    acknowledgments st !! msg_id h = Some acked ∧
    st' = after_delivery h st ∧ after_try_deliver st = after_delivery h st.
Proof.
  intros Hq. rewrite try_deliver_message_spec by done. unfold after_try_deliver.
  destruct (message_queue st) as [|h q] eqn:Hqueue; [done|].
  destruct (acknowledgments st !! msg_id h) as [acked|] eqn:Hacked; [|done].
  destruct (bool_decide _); [|done].
  intros [= <-]. exists h, q, acked. by split_and!.
Qed.

Lemma enqueues_dec (k : option string) (c : call) : enqueues k c ∨ ¬ enqueues k c.
Proof.
  destruct c as [m| | | |]; simpl; [|right; tauto..].
  destruct (msg_type m); [|right; by intros [? _]].
  destruct (decide (k = Some (msg_id m))); [by left|right; by intros [_ ?]].
Qed.

Lemma pending_acks_after_ack (a : Message) (st : Process) (k : option string)
    (l : list Message) :
  pending_acks st !! k = Some l →
  ∃ l', pending_acks (after_ack a st) !! k = Some (l ++ l').
Proof.
  intros Hl. destruct (after_ack_cases a st) as [(k' & acked & _ & _ & ->)|[_ ->]]; simpl.
  - exists []. by rewrite app_nil_r.
  - destruct (decide (original_msg_id a = k)) as [->|Hne].
    + exists [a]. by rewrite lookup_insert_eq, Hl.
    + exists []. by rewrite lookup_insert_ne, app_nil_r.
Qed.

Lemma pending_acks_after_call (c : call) (st : Process) (k : option string)
    (l : list Message) :
  invariant st → pending_acks st !! k = Some l → ¬ enqueues k c →
  ∃ l', pending_acks (after_call c st) !! k = Some (l ++ l').
Proof.
  intros (Hq & Hkeyed & _) Hl Hc. destruct c as [m| |content|m|]; simpl.
  - destruct (msg_type m) eqn:Hty; [|by apply pending_acks_after_ack].
    rewrite after_multicast_fields by done. simpl. exists [].
    rewrite lookup_delete_ne, app_nil_r; [done|]. intros <-. by apply Hc.
  - exists []. rewrite app_nil_r. unfold after_try_deliver.
    destruct (message_queue st) as [|h q]; [done|].
    destruct (acknowledgments st !! msg_id h) as [acked|]; [|done].
    by destruct (bool_decide _).
  - exists []. by rewrite app_nil_r.
  - exists []. by rewrite app_nil_r.
  - exists []. by rewrite app_nil_r.
Qed.

Lemma pending_acks_after_calls (cs : list call) (st : Process) (k : option string)
    (l : list Message) :
  invariant st → pending_acks st !! k = Some l →
  Forall (λ c, ¬ enqueues k c) cs →
  ∃ l', pending_acks (foldl (λ s c, after_call c s) st cs) !! k = Some (l ++ l').
Proof.
  intros Hinv Hl Hcs. revert st l Hinv Hl.
  induction Hcs as [|c cs Hc _ IH]; intros st l Hinv Hl; simpl.
  { exists []. by rewrite app_nil_r. }
  destruct (pending_acks_after_call c st k l) as [l1 Hl1]; [done..|].
  destruct (IH (after_call c st) (l ++ l1)) as [l2 Hl2];
    [by apply after_call_invariant|done|].
  exists (l1 ++ l2). by rewrite (assoc_L (++)).
Qed.

Lemma config_after_call (c : call) (st : Process) :
  invariant st → config (after_call c st) = config st.
Proof.
  intros (Hq & Hkeyed & _). destruct c as [m| |content|m|]; simpl; try done.
  - destruct (msg_type m); [by rewrite after_multicast_fields|].
    by destruct (after_ack_cases m st) as [(k' & acked & _ & _ & ->)|[_ ->]].
  - unfold after_try_deliver.
    destruct (message_queue st) as [|h q]; [done|].
    destruct (acknowledgments st !! msg_id h) as [acked|]; [|done].
    by destruct (bool_decide _).
Qed.

Lemma proc_id_after_call (c : call) (st : Process) :
  invariant st → proc_id (after_call c st) = proc_id st.
Proof.
  intros Hinv. pose proof (config_after_call c st Hinv) as Hconfig.
  unfold config in Hconfig. congruence.
Qed.

Lemma config_after_calls (cs : list call) (st : Process) :
  invariant st → config (foldl (λ s c, after_call c s) st cs) = config st.
Proof.
  revert st. induction cs as [|c cs IH]; intros st Hinv; simpl; [done|].
  rewrite IH by by apply after_call_invariant. by apply config_after_call.
Qed.

(** [required_acks] is the size of the group, in every state of a running
    process, and the group has a member. *)
Lemma reachable_required_acks (st : Process) :
  reachable st → required_acks st = size (all_processes st) ∧ 0 < required_acks st.
Proof.
  intros (pid & p & others & inc & st0 & cs & Hinit & Hrun).
  pose proof (Process__init__invariant _ _ _ _ _ Hinit) as Hinv.
  destruct (run_calls_spec cs st0 Hinv) as [Hrun' _].
  rewrite Hrun in Hrun'. injection Hrun' as ->.
  pose proof (config_after_calls cs st0 Hinv) as Hconfig.
  unfold config in Hconfig. injection Hconfig as _ _ _ _ _ -> ->.
  clear Hinv. unfold Process__init__ in Hinit.
  destruct (port_names _) as [names| |] eqn:Hnames; simpl in Hinit; [|done..].
  injection Hinit as <-. simpl. split; [done|].
  destruct (sorted Z.ltb (p :: others)) as [|q ports] eqn:Hsorted.
  { pose proof (sorted_Permutation Z.ltb (p :: others)) as Hperm.
    rewrite Hsorted in Hperm. by apply Permutation_nil_cons in Hperm. }
  simpl in Hnames. destruct (port_name q) as [n| |]; simpl in Hnames; [|done..].
  destruct (port_names ports) as [ns| |]; simpl in Hnames; [|done..].
  injection Hnames as <-. simpl.
  rewrite size_union_alt, size_singleton. lia.
Qed.

Lemma acknowledgments_after_call (c : call) (st : Process) (k : string) :
  invariant st → acknowledgments st !! k = None →
  (∀ ts, k ≠ proc_id st +:+ "_" +:+ str_int ts) →
  ¬ enqueues (Some k) c →
  acknowledgments (after_call c st) !! k = None.
Proof.
  intros (Hq & Hkeyed & _) Hnone Hown Hc. destruct c as [m| |content|m|]; simpl.
  - destruct (msg_type m) eqn:Hty.
    + rewrite after_multicast_fields by done. simpl.
      rewrite lookup_insert_ne; [done|]. intros Hk. apply Hc. simpl. by rewrite Hk.
    + destruct (after_ack_cases m st) as [(k' & acked & _ & Hacked & ->)|[_ ->]];
        simpl; [|done].
      rewrite lookup_insert_ne; [done|]. intros ->. congruence.
  - unfold after_try_deliver.
    destruct (message_queue st) as [|h q]; [done|].
    destruct (acknowledgments st !! msg_id h) as [acked|]; [|done].
    destruct (bool_decide _); [|done]. simpl.
    rewrite lookup_delete. by case_decide.
  - rewrite lookup_insert_ne; [done|]. intros Hk. by eapply Hown.
  - done.
  - done.
Qed.

Lemma acknowledgments_after_calls (cs : list call) (st : Process) (k : string) :
  invariant st → acknowledgments st !! k = None →
  (∀ ts, k ≠ proc_id st +:+ "_" +:+ str_int ts) →
  Forall (λ c, ¬ enqueues (Some k) c) cs →
  acknowledgments (foldl (λ s c, after_call c s) st cs) !! k = None.
Proof.
  intros Hinv Hnone Hown Hcs. revert st Hinv Hnone Hown.
  induction Hcs as [|c cs Hc _ IH]; intros st Hinv Hnone Hown; simpl; [done|].
  apply IH.
  - by apply after_call_invariant.
  - by apply acknowledgments_after_call.
  - by rewrite proc_id_after_call.
Qed.

(** C8. In a running process:
    - an acknowledgment whose [original_msg_id] has no entry in the table is
      appended to the buffer under that id, and the table is left as it was;
    - a successful delivery leaves no entry for the id of the delivered
      head, so an acknowledgment for it that arrives next is buffered in the
      same way and the table still has no entry for that id;
    - a call after which a buffer entry is gone is the receipt of a
      Multicast with that id;
    - along any calls none of which is such a receipt, the buffer entry
      stays and keeps every acknowledgment it held, so none of them is
      replayed into the table;
    - and if moreover the id is not one this process gives to its own
      messages, the table has no entry for it after those calls. *)
Theorem late_ack_stays_buffered :
  (∀ (st : Process) (a : Message),
     reachable st → ack_lookup (original_msg_id a) st = None →
     ∃ st', _process_acknowledgment a st = Done tt st' ∧
            pending_acks st' !! original_msg_id a
            = Some (default [] (pending_acks st !! original_msg_id a) ++ [a]) ∧
            acknowledgments st' = acknowledgments st) ∧
  (∀ (st st1 : Process) (a : Message),
     reachable st → try_deliver_message st = Done true st1 →
     ∃ h q,
       message_queue st = h :: q ∧
       acknowledgments st1 !! msg_id h = None ∧
       (original_msg_id a = Some (msg_id h) →
        ∃ st2, _process_acknowledgment a st1 = Done tt st2 ∧
               pending_acks st2 !! Some (msg_id h)
               = Some (default [] (pending_acks st !! Some (msg_id h)) ++ [a]) ∧
               acknowledgments st2 !! msg_id h = None)) ∧
  (∀ (st st' : Process) (c : call) (k : option string),
     reachable st → is_Some (pending_acks st !! k) →
     run_call c st = Done tt st' → pending_acks st' !! k = None →
     enqueues k c) ∧
  (∀ (st : Process) (cs : list call) (k : option string) (l : list Message),
     reachable st → pending_acks st !! k = Some l →
     Forall (λ c, ¬ enqueues k c) cs →
     ∃ st' l', run_calls cs st = Done tt st' ∧
               pending_acks st' !! k = Some (l ++ l')) ∧
  (∀ (st : Process) (cs : list call) (k : string),
     reachable st → acknowledgments st !! k = None →
     (∀ ts, k ≠ proc_id st +:+ "_" +:+ str_int ts) →
     Forall (λ c, ¬ enqueues (Some k) c) cs →
     ∃ st', run_calls cs st = Done tt st' ∧ acknowledgments st' !! k = None).
Proof.
  split_and!.
  - intros st a Hreach Hnone. exists (after_ack a st).
    split; [by apply reachable__process_acknowledgment|].
    destruct (after_ack_buffered a st Hnone) as [-> ->].
    by rewrite lookup_insert_eq.
  - intros st st1 a Hreach Hrun.
    pose proof (reachable_invariant _ Hreach) as Hinv.
    destruct (try_deliver_message_Done_true st st1) as (h & q & acked & Hqueue & _ & -> & Hafter);
      [apply Hinv|done|].
    pose proof (after_call_invariant TryDeliver st Hinv) as Hinv1.
    simpl in Hinv1. rewrite Hafter in Hinv1.
    assert (acknowledgments (after_delivery h st) !! msg_id h = None) as Hgone.
    { simpl. apply lookup_delete_eq. }
    exists h, q. split_and!; [done..|].
    intros Horig.
    assert (ack_lookup (original_msg_id a) (after_delivery h st) = None) as Hnone.
    { unfold ack_lookup. by rewrite Horig. }
    exists (after_ack a (after_delivery h st)). split.
    { destruct Hinv1 as ((Hclock & _ & Hack & Hpending) & _ & _).
      by rewrite _process_acknowledgment_spec, Hnone, Hpending. }
    destruct (after_ack_buffered a _ Hnone) as [-> ->].
    by rewrite Horig, lookup_insert_eq.
  - intros st st' c k Hreach [l Hl] Hrun Hgone.
    pose proof (reachable_invariant _ Hreach) as Hinv.
    destruct (enqueues_dec k c) as [|Hc]; [done|].
    rewrite run_call_spec in Hrun by apply Hinv. injection Hrun as <-.
    destruct (pending_acks_after_call c st k l) as [l' Hl']; [done..|]. congruence.
  - intros st cs k l Hreach Hl Hcs.
    pose proof (reachable_invariant _ Hreach) as Hinv.
    destruct (run_calls_spec cs st Hinv) as [Hrun _].
    destruct (pending_acks_after_calls cs st k l) as [l' Hl']; [done..|].
    by eexists _, l'.
  - intros st cs k Hreach Hnone Hown Hcs.
    pose proof (reachable_invariant _ Hreach) as Hinv.
    destruct (run_calls_spec cs st Hinv) as [Hrun _].
    eexists. split; [done|]. by apply acknowledgments_after_calls.
Qed.

Lemma late_ack_stays_buffered_witness :
  ∃ st' l',
    run_calls [Receive world; TryDeliver; Pass; SendMessage "again"]
      (state_after [TryDeliver; Receive (ack_from "processo2" 9 hello)] hello_ready)
    = Done tt st' ∧
    pending_acks st' !! Some (msg_id hello)
    = Some ([ack_from "processo2" 9 hello] ++ l').
Proof.
  apply (proj1 (proj2 (proj2 (proj2 late_ack_stays_buffered)))).
  - apply reachable_state_after, reachable_state_after, reachable_p1.
  - vm_compute. reflexivity.
  - repeat constructor; simpl; try tauto. by intros [_ [=]].
Defined.

(** ** The constructor and the codec on concrete inputs *)

Lemma Process__init__ports_witness :
  ∃ st names,
    Process__init__ "processo1" 5000 [5001; 5002]%Z 1 = Return st ∧
    effects st = [] ∧
    Forall2 (λ q n, port_to_process !! q = Some n) [5000; 5001; 5002]%Z names ∧
    required_acks st = length (remove_dups names).
Proof.
  apply (proj2 (Process__init__ports "processo1" 5000 [5001; 5002]%Z 1)).
  intros q Hq. exact Hq.
Defined.

Example Process__init__unknown_port :
  Process__init__ "processo1" 5000 [5001; 6000]%Z 1 = Throw (KeyError (VInt 6000)).
Proof. reflexivity. Qed.

Example Process__init__duplicate_port :
  match Process__init__ "processo1" 5000 [5001; 5001]%Z 1 with
  | Return st => required_acks st = 2
  | _ => False
  end.
Proof. vm_compute. reflexivity. Qed.

Lemma from_dict_to_dict_witness :
  renamed !! "msg_id" = Some (VStr "other_7").
Proof.
  apply (proj1 (proj2 from_dict_to_dict) renamed
           (mkMessage "other_7" MULTICAST "processo2" 1 (Some "hello") None)).
  vm_compute. reflexivity.
Defined.

Example from_dict_missing_key :
  from_dict (delete "sender" (to_dict hello)) = Throw (KeyError (VStr "sender")).
Proof. vm_compute. reflexivity. Qed.

Example from_dict_bad_type :
  from_dict (<["msg_type" := VStr "nack"]> (to_dict hello))
  = Throw (ValueError (VStr "nack")).
Proof. vm_compute. reflexivity. Qed.

(** ** The sort is stable *)

Lemma string_compare_refl (s : string) : String.compare s s = Eq.
Proof.
  induction s as [|c s IH]; simpl; [done|].
  unfold Ascii.compare. by rewrite N.compare_refl.
Qed.

Lemma msg_lt_sort_key (a b : Message) : msg_lt a b = true → sort_key a ≠ sort_key b.
Proof.
  unfold msg_lt, key_lt. intros Hlt Heq. rewrite Heq, Z.eqb_refl in Hlt.
  unfold String.ltb in Hlt. by rewrite string_compare_refl in Hlt.
Qed.

Lemma insert_sorted_stable (k : Z * string) (x : Message) (l : list Message) :
  filter (λ m, sort_key m = k) (insert_sorted msg_lt x l)
  = filter (λ m, sort_key m = k) (x :: l).
Proof.
  induction l as [|y l IH]; simpl; [done|].
  destruct (msg_lt y x) eqn:Hlt; [|done].
  apply msg_lt_sort_key in Hlt.
  rewrite (filter_cons _ y), IH, !(filter_cons _ x), !(filter_cons _ y).
  repeat case_decide; congruence.
Qed.

(** Messages with the same [(timestamp, sender)] keep the order in which
    they stood in the list that was sorted. *)
Lemma sorted_stable (k : Z * string) (l : list Message) :
  filter (λ m, sort_key m = k) (sorted msg_lt l) = filter (λ m, sort_key m = k) l.
Proof.
  induction l as [|x l IH]; simpl; [done|].
  by rewrite insert_sorted_stable, !(filter_cons _ x), IH.
Qed.

(** ** The scenarios of three processes *)

(** All three acknowledgments recorded: the head is delivered. *)
Example hello_delivered :
  returned (try_deliver_message hello_ready) = Some true ∧
  effects (state_after [TryDeliver] hello_ready)
  = effects hello_ready ++ [Delivered hello].
Proof. split; vm_compute; reflexivity. Qed.

(** Equal timestamps: the lexicographically smaller sender goes first. *)
Example tie_break :
  message_queue
    (state_after [Receive (Message__init__ MULTICAST "processo2" 5 (Some "b") None);
                  Receive (Message__init__ MULTICAST "processo1" 5 (Some "a") None)] p1)
  = [Message__init__ MULTICAST "processo1" 5 (Some "a") None;
     Message__init__ MULTICAST "processo2" 5 (Some "b") None].
Proof. vm_compute. reflexivity. Qed.

(** The head has two acknowledgments of three, the second message all
    three: nothing is delivered. *)
Example blocked_queue :
  size <$> acknowledgments hello_blocked !! msg_id hello = Some 2 ∧
  size <$> acknowledgments hello_blocked !! msg_id world = Some 3 ∧
  try_deliver_message hello_blocked = Done false hello_blocked.
Proof. split_and!; vm_compute; reflexivity. Qed.

(** * Further properties of the code *)

(** ** message.py: decoding and ids *)



Lemma occurs_app (c : Ascii.ascii) (s1 s2 : string) :
  occurs c (s1 +:+ s2) = occurs c s1 || occurs c s2.
Proof.
  induction s1 as [|c' s1 IH]; [done|].
  change (String c' s1 +:+ s2) with (String c' (s1 +:+ s2)). simpl.
  by rewrite IH, orb_assoc.
Qed.

Lemma occurs_string_of_uint (d : Decimal.uint) :
  occurs underscore (NilEmpty.string_of_uint d) = false.
Proof. induction d; simpl; try done; by rewrite IHd. Qed.

Lemma occurs_str_int (z : Z) : occurs underscore (str_int z) = false.
Proof.
  unfold str_int, NilZero.string_of_int, NilZero.string_of_uint.
  destruct (Z.to_int z) as [d|d]; destruct d; simpl; try done;
    by rewrite occurs_string_of_uint.
Qed.

Lemma str_int_inj (z1 z2 : Z) : str_int z1 = str_int z2 → z1 = z2.
Proof.
  unfold str_int. intros Heq. apply DecimalZ.to_int_inj.
  assert (∀ z, Z.to_int z ≠ Decimal.Pos Decimal.Nil ∧
               Z.to_int z ≠ Decimal.Neg Decimal.Nil) as Hnonnil.
  { intros [|p|p]; simpl; split; try done; intros [= H];
      by apply DecimalPos.Unsigned.to_uint_nonnil in H. }
  assert (Some (Z.to_int z1) = Some (Z.to_int z2)) as [= ->]; [|done].
  rewrite <-(NilZero.isi (Z.to_int z1)), <-(NilZero.isi (Z.to_int z2));
    [by rewrite Heq|apply Hnonnil..].
Qed.

(** The text after the last ["_"] of an id is the timestamp. *)
Lemma app_underscore_inj (s1 s2 d1 d2 : string) :
  occurs underscore d1 = false → occurs underscore d2 = false →
  s1 +:+ "_" +:+ d1 = s2 +:+ "_" +:+ d2 → s1 = s2 ∧ d1 = d2.
Proof.
  assert (∀ s d, occurs underscore (s +:+ "_" +:+ d) = true) as Hocc.
  { intros s d. rewrite !occurs_app.
    change (occurs underscore "_") with true. by rewrite orb_true_r. }
  intros Hd1 Hd2. revert s2.
  induction s1 as [|c s1 IH]; intros [|c' s2] Heq.
  - change (String underscore d1 = String underscore d2) in Heq.
    by injection Heq as ->.
  - change (String underscore d1 = String c' (s2 +:+ "_" +:+ d2)) in Heq.
    injection Heq as _ ->. by rewrite Hocc in Hd1.
  - change (String c (s1 +:+ "_" +:+ d1) = String underscore d2) in Heq.
    injection Heq as _ <-. by rewrite Hocc in Hd2.
  - change (String c (s1 +:+ "_" +:+ d1) = String c' (s2 +:+ "_" +:+ d2)) in Heq.
    injection Heq as -> Heq. by destruct (IH _ Heq) as [-> ->].
Qed.

(** X3. The id [Message.__init__] derives identifies sender and timestamp:
    two constructed messages have the same id exactly when they have the
    same sender and the same timestamp, whatever underscores, digits or
    signs the sender names contain. *)
Theorem msg_id_same_iff (ty ty' : MessageType) (s s' : string) (ts ts' : Z)
    (c c' o o' : option string) :
  msg_id (Message__init__ ty s ts c o) = msg_id (Message__init__ ty' s' ts' c' o') ↔
  s = s' ∧ ts = ts'.
Proof.
  simpl. split; [|by intros [-> ->]].
  intros Heq. apply app_underscore_inj in Heq as [-> Hts];
    [|apply occurs_str_int..].
  by apply str_int_inj in Hts as ->.
Qed.

(** ** process.py: a running process never gets stuck *)

Lemma reachable_run_calls (cs : list call) (st : Process) :
  reachable st →
  run_calls cs st = Done tt (state_after cs st) ∧
  reachable (state_after cs st) ∧ quiescent (state_after cs st).
Proof.
  intros Hreach. pose proof (reachable_invariant _ Hreach) as Hinv.
  destruct (run_calls_spec cs st Hinv) as [Hrun _].
  split_and!.
  - by rewrite state_after_spec.
  - by apply reachable_state_after.
  - by apply reachable_invariant, reachable_state_after.
Qed.

Lemma run_calls_Done (cs : list call) (st st' : Process) :
  invariant st → run_calls cs st = Done tt st' →
  st' = foldl (λ s c, after_call c s) st cs.
Proof.
  intros Hinv Hrun. destruct (run_calls_spec cs st Hinv) as [Hrun' _]. congruence.
Qed.

(** A property of the states the constructor returns that every call keeps
    holds of every state of a running process. *)
Lemma reachable_induction (P : Process → Prop) :
  (∀ pid p others inc st0, Process__init__ pid p others inc = Return st0 → P st0) →
  (∀ c st, reachable st → P st → P (after_call c st)) →
  ∀ st, reachable st → P st.
Proof.
  intros Hinit Hstep st (pid & p & others & inc & st0 & cs & Hst0 & Hrun).
  assert (reachable st0) as Hreach0 by (by exists pid, p, others, inc, st0, []).
  apply run_calls_Done in Hrun as ->; [|by apply reachable_invariant].
  assert (P st0) as HP0 by eauto. clear Hst0.
  revert st0 Hreach0 HP0. induction cs as [|c cs IH]; intros st0 Hreach0 HP0; [done|].
  simpl. apply IH; [by apply reachable_after_call|by apply Hstep].
Qed.



(** X5. The lock order the replay relies on: when the buffer entry of a
    received Multicast holds an acknowledgment that is filed under it but
    names another id, one the table has no entry for, the receipt never
    returns, because [_process_acknowledgment] asks for the pending lock
    its caller holds.  (By X4 no running process has such a buffer.) *)
Theorem replay_waits_for_its_own_lock (st : Process) (m a : Message)
    (l1 l2 : list Message) :
  quiescent st → msg_type m = MULTICAST →
  pending_acks st !! Some (msg_id m) = Some (l1 ++ a :: l2) →
  Forall (λ b, original_msg_id b = Some (msg_id m)) l1 →
  original_msg_id a ≠ Some (msg_id m) →
  ack_lookup (original_msg_id a) st = None →
  _process_received_message m st = Hang.
Proof.
  intros (Hclock & Hqueue & Hack & Hpending) Hty Hl Hl1 Hother Hnone.
  unfold _process_received_message. rewrite Hty.
  unfold mbind at 1, M_bind at 1.
  rewrite update_clock_on_receive_spec by done.
  unfold mbind at 1, M_bind at 1.
  rewrite increment_for_delivery_spec by done.
  unfold start_timer. run_monad.
  rewrite Hqueue; simpl. rewrite Hack; simpl. rewrite Hpending; simpl.
  rewrite Hl; simpl. rewrite for_each_app.
  rewrite (for_each__process_acknowledgment l1 _ (msg_id m));
    [|done|done|done|simpl; rewrite lookup_insert_eq; eauto].
  rewrite (foldl_after_ack l1 _ (msg_id m) ∅); [|done|simpl; apply lookup_insert_eq].
  simpl. unfold mbind, M_bind.
  rewrite _process_acknowledgment_spec by done.
  match goal with
  | |- context [ack_lookup (original_msg_id a) ?s] =>
      assert (ack_lookup (original_msg_id a) s = None) as ->
  end.
  { unfold ack_lookup in *. destruct (original_msg_id a) as [k|]; simpl in *; [|done].
    rewrite !lookup_insert_ne; [done|congruence..]. }
  done.
Qed.

Lemma replay_waits_for_its_own_lock_witness :
  _process_received_message hello misfiled = Hang.
Proof.
  apply (replay_waits_for_its_own_lock misfiled hello (ack_from "processo3" 2 world) [] []).
  - by vm_compute.
  - reflexivity.
  - vm_compute. reflexivity.
  - constructor.
  - vm_compute. by intros [=].
  - vm_compute. reflexivity.
Defined.

(** ** process.py: the clock along all calls *)

Lemma foldl_clock_after_receive_le (inc c : Z) (l : list Message) :
  (0 ≤ inc)%Z →
  (c ≤ foldl (λ c a, clock_after_receive inc c (timestamp a)) c l)%Z.
Proof.
  intros Hinc. revert c. induction l as [|a l IH]; intros c; simpl; [lia|].
  etrans; [|apply IH]. unfold clock_after_receive. lia.
Qed.

Lemma logical_clock_after_receive (m : Message) (st : Process) :
  invariant st → (0 ≤ clock_increment st)%Z →
  (clock_after_receive (clock_increment st) (logical_clock st) (timestamp m)
   ≤ logical_clock (after_call (Receive m) st))%Z.
Proof.
  intros (Hq & Hkeyed & _) Hinc. simpl. destruct (msg_type m).
  - rewrite after_multicast_fields by done. simpl.
    by apply foldl_clock_after_receive_le.
  - by destruct (after_ack_cases m st) as [(k' & acked & _ & _ & ->)|[_ ->]].
Qed.

Lemma logical_clock_after_call (c : call) (st : Process) :
  invariant st → (0 ≤ clock_increment st)%Z →
  (logical_clock st ≤ logical_clock (after_call c st))%Z.
Proof.
  intros Hinv Hinc. destruct c as [m| |content|m|].
  - etrans; [|by apply logical_clock_after_receive].
    unfold clock_after_receive. lia.
  - simpl. unfold after_try_deliver.
    destruct (message_queue st) as [|h q]; [done|].
    destruct (acknowledgments st !! msg_id h) as [acked|]; [|done].
    by destruct (bool_decide _).
  - simpl. lia.
  - simpl. lia.
  - simpl. lia.
Qed.

Lemma clock_increment_after_call (c : call) (st : Process) :
  invariant st → clock_increment (after_call c st) = clock_increment st.
Proof.
  intros Hinv. pose proof (config_after_call c st Hinv) as Hconfig.
  unfold config in Hconfig. congruence.
Qed.

Lemma logical_clock_after_calls (cs : list call) (st : Process) :
  invariant st → (0 ≤ clock_increment st)%Z →
  (logical_clock st ≤ logical_clock (foldl (λ s c, after_call c s) st cs))%Z.
Proof.
  revert st. induction cs as [|c cs IH]; intros st Hinv Hinc; simpl; [done|].
  etrans; [by apply (logical_clock_after_call c)|].
  apply IH; [by apply after_call_invariant|by rewrite clock_increment_after_call].
Qed.

Lemma run_call_Done (c : call) (st st' : Process) :
  invariant st → run_call c st = Done tt st' → st' = after_call c st.
Proof.
  intros (Hq & Hkeyed & _) Hrun. rewrite run_call_spec in Hrun by done. congruence.
Qed.

(** X6. In a running process with a positive increment no call of any kind
    sets the clock back; after a message is received the clock is above the
    timestamp of the message and above its own value before; and the
    acknowledgment sent for a received Multicast, whatever calls come in
    between, carries a timestamp above the timestamp of that Multicast. *)
Theorem logical_clock_along_calls (st : Process) :
  reachable st → (0 < clock_increment st)%Z →
  (∀ cs st', run_calls cs st = Done tt st' →
     (logical_clock st ≤ logical_clock st')%Z) ∧
  (∀ m st', _process_received_message m st = Done tt st' →
     (timestamp m < logical_clock st')%Z ∧
     (logical_clock st < logical_clock st')%Z) ∧
  (∀ m cs st1 st2,
     _process_received_message m st = Done tt st1 →
     run_calls cs st1 = Done tt st2 →
     ∃ st3 ack,
       _send_acknowledgment m st2 = Done tt st3 ∧
       effects st3 = effects st2 ++ map (λ p, SentTo p (to_dict ack)) (all_ports st2) ∧
       msg_type ack = ACK ∧ original_msg_id ack = Some (msg_id m) ∧
       (timestamp m < timestamp ack)%Z).
Proof.
  intros Hreach Hinc. pose proof (reachable_invariant _ Hreach) as Hinv.
  assert (∀ m st', _process_received_message m st = Done tt st' →
            st' = after_call (Receive m) st ∧
            (timestamp m < logical_clock st')%Z ∧
            (logical_clock st < logical_clock st')%Z) as Hreceive.
  { intros m st' Hrun. apply (run_call_Done (Receive m)) in Hrun as ->; [|done].
    split; [done|].
    pose proof (logical_clock_after_receive m st Hinv ltac:(lia)) as Hle.
    unfold clock_after_receive in Hle. lia. }
  split_and!.
  - intros cs st' Hrun. apply run_calls_Done in Hrun as ->; [|done].
    apply logical_clock_after_calls; [done|lia].
  - intros m st' Hrun. by apply Hreceive in Hrun as (_ & ? & ?).
  - intros m cs st1 st2 Hrun1 Hrun2.
    apply Hreceive in Hrun1 as (-> & Hts & _).
    pose proof (after_call_invariant (Receive m) st Hinv) as Hinv1.
    pose proof (clock_increment_after_call (Receive m) st Hinv) as Hinc1.
    remember (after_call (Receive m) st) as st1 eqn:Hst1. clear Hst1.
    apply run_calls_Done in Hrun2 as ->; [|done].
    destruct (run_calls_spec cs _ Hinv1) as [_ Hinv2].
    pose proof (logical_clock_after_calls cs _ Hinv1 ltac:(lia)) as Hle.
    pose proof (config_after_calls cs _ Hinv1) as Hconfig.
    unfold config in Hconfig. injection Hconfig as _ _ _ Hinc2 _ _ _.
    eexists _, _. split; [by apply _send_acknowledgment_spec, Hinv2|].
    split_and!; [done..|]. cbn [timestamp Message__init__].
    rewrite Hinc2, Hinc1. lia.
Qed.

Lemma logical_clock_along_calls_witness :
  (timestamp world < logical_clock (state_after [Receive world] p1))%Z ∧
  (logical_clock p1 < logical_clock (state_after [Receive world] p1))%Z.
Proof.
  apply (logical_clock_along_calls p1); [apply reachable_p1|reflexivity|].
  vm_compute. reflexivity.
Defined.

(** ** process.py: the messages a process originates *)

Lemma originated_fields (c : call) (st : Process) (m : Message) :
  originated c st = Some m →
  sender m = proc_id st ∧
  timestamp m = (logical_clock st + clock_increment st)%Z ∧
  msg_id m = proc_id st +:+ "_" +:+ str_int (timestamp m) ∧
  logical_clock (after_call c st) = timestamp m ∧
  effects (after_call c st)
  = effects st ++ map (λ p, SentTo p (to_dict m)) (all_ports st).
Proof. destruct c; simpl; intros [= <-]; by split_and!. Qed.

(** X7. In a running process with a positive increment, a message built by
    [send_message] or [_send_acknowledgment] is sent to every port of the
    group under the name of the process, and any message the process builds
    later, whatever calls come in between, has a greater timestamp and a
    different id: no two messages of one process share [(sender, timestamp)]. *)
Theorem originated_ids_fresh (st st2 : Process) (c1 c2 : call) (cs : list call)
    (m1 m2 : Message) :
  reachable st → (0 < clock_increment st)%Z →
  originated c1 st = Some m1 →
  run_calls (c1 :: cs) st = Done tt st2 →
  originated c2 st2 = Some m2 →
  (∃ st1, run_call c1 st = Done tt st1 ∧
          effects st1 = effects st ++ map (λ p, SentTo p (to_dict m1)) (all_ports st)) ∧
  sender m1 = proc_id st ∧ sender m2 = proc_id st ∧
  (timestamp m1 < timestamp m2)%Z ∧ msg_id m1 ≠ msg_id m2.
Proof.
  intros Hreach Hinc Hm1 Hrun Hm2.
  pose proof (reachable_invariant _ Hreach) as Hinv.
  apply run_calls_Done in Hrun as ->; [|done]. simpl in Hm2.
  pose proof (after_call_invariant c1 st Hinv) as Hinv1.
  pose proof (clock_increment_after_call c1 st Hinv) as Hinc1.
  pose proof (config_after_call c1 st Hinv) as Hconfig1.
  apply originated_fields in Hm1 as (Hs1 & Hts1 & Hid1 & Hclock1 & Heffects1).
  remember (after_call c1 st) as st1 eqn:Hst1.
  pose proof (logical_clock_after_calls cs st1 Hinv1 ltac:(lia)) as Hle.
  pose proof (config_after_calls cs st1 Hinv1) as Hconfig2.
  apply originated_fields in Hm2 as (Hs2 & Hts2 & Hid2 & _ & _).
  unfold config in Hconfig1, Hconfig2.
  injection Hconfig1 as Hpid1 _ _ _ _ _ _. injection Hconfig2 as Hpid2 _ _ Hinc2 _ _ _.
  assert (timestamp m1 < timestamp m2)%Z as Hlt by lia.
  split_and!; [|done|congruence|done|].
  - exists st1. subst st1. by rewrite run_call_spec by apply Hinv.
  - rewrite Hid1, Hid2. intros [_ Hts]%app_underscore_inj; [|apply occurs_str_int..].
    apply str_int_inj in Hts. lia.
Qed.

Lemma originated_ids_fresh_witness :
  (timestamp (own_multicast "a" p1)
   < timestamp (own_multicast "b" (state_after [SendMessage "a"; Receive hello] p1)))%Z.
Proof.
  apply (originated_ids_fresh p1 (state_after [SendMessage "a"; Receive hello] p1)
           (SendMessage "a") (SendMessage "b") [Receive hello]).
  - apply reachable_p1.
  - reflexivity.
  - reflexivity.
  - vm_compute. reflexivity.
  - reflexivity.
Defined.

(** ** process.py: what is queued and what is delivered *)

Lemma delivered_app (st : Process) (es : list effect) :
  delivered (set_effects (effects st ++ es) st)
  = delivered st ++ omap (λ e, match e with Delivered m => Some m | _ => None end) es.
Proof. unfold delivered. simpl. by rewrite omap_app. Qed.

Lemma omap_SentTo (m : Message) (ports : list Z) :
  omap (λ e, match e with Delivered m => Some m | _ => None end)
       (map (λ p, SentTo p (to_dict m)) ports) = [].
Proof. by induction ports. Qed.

Lemma queue_delivered_after_call (c : call) (st : Process) :
  invariant st →
  message_queue (after_call c st) ++ delivered (after_call c st)
  ≡ₚ (message_queue st ++ delivered st) ++ received [c] ∧
  delivered st `prefix_of` delivered (after_call c st).
Proof.
  intros (Hq & Hkeyed & _). destruct c as [m| |content|m|]; simpl.
  - destruct (msg_type m) eqn:Hty.
    + rewrite after_multicast_fields by done. unfold delivered. simpl.
      rewrite omap_app. simpl. rewrite app_nil_r. split; [|done].
      rewrite sorted_Permutation.
      rewrite <-!(assoc_L (++)). apply Permutation_app_head, Permutation_app_comm.
    + rewrite app_nil_r.
      by destruct (after_ack_cases m st) as [(k' & acked & _ & _ & ->)|[_ ->]].
  - rewrite app_nil_r. unfold after_try_deliver.
    destruct (message_queue st) as [|h q] eqn:Hqueue; [by rewrite Hqueue|].
    destruct (acknowledgments st !! msg_id h) as [acked|]; [|by rewrite Hqueue].
    destruct (bool_decide _); [|by rewrite Hqueue].
    unfold after_delivery, delivered. simpl. rewrite Hqueue, omap_app. simpl.
    split; [|by apply prefix_app_r].
    rewrite (assoc_L (++)). by rewrite <-Permutation_cons_append.
  - unfold delivered. simpl. by rewrite omap_app, omap_SentTo, !app_nil_r.
  - unfold delivered. simpl. by rewrite omap_app, omap_SentTo, !app_nil_r.
  - by rewrite app_nil_r.
Qed.

Lemma received_cons (c : call) (cs : list call) :
  received (c :: cs) = received [c] ++ received cs.
Proof. unfold received. simpl. by destruct c as [m| | | |]; [destruct (msg_type m)|..]. Qed.

Lemma queue_delivered_after_calls (cs : list call) (st : Process) :
  invariant st →
  let st' := foldl (λ s c, after_call c s) st cs in
  message_queue st' ++ delivered st' ≡ₚ (message_queue st ++ delivered st) ++ received cs ∧
  delivered st `prefix_of` delivered st'.
Proof.
  revert st. induction cs as [|c cs IH]; intros st Hinv.
  { simpl. by rewrite app_nil_r. }
  cbn [foldl].
  destruct (queue_delivered_after_call c st Hinv) as [Hperm Hprefix].
  destruct (IH (after_call c st)) as [Hperm' Hprefix']; [by apply after_call_invariant|].
  split; [|by etrans].
  rewrite Hperm', Hperm, (received_cons c cs). by rewrite <-!(assoc_L (++)).
Qed.

(** X8. Along any calls on a running process, the messages in the queue
    together with the messages handed to the delivery callback are, counted
    with multiplicity, those that were there before and the Multicasts
    received since: no received Multicast is lost or handed over twice, and
    nothing is delivered that was not received; what has been delivered
    stays delivered, in the same order. *)
Theorem queue_and_delivered_conserved (st st' : Process) (cs : list call) :
  reachable st → run_calls cs st = Done tt st' →
  message_queue st' ++ delivered st'
  ≡ₚ (message_queue st ++ delivered st) ++ received cs ∧
  delivered st `prefix_of` delivered st'.
Proof.
  intros Hinv%reachable_invariant Hrun.
  apply run_calls_Done in Hrun as ->; [|done].
  by apply queue_delivered_after_calls.
Qed.

Lemma queue_and_delivered_conserved_witness :
  message_queue both_ready ++ delivered both_ready ≡ₚ ([] ++ []) ++ [hello; world].
Proof.
  apply (queue_and_delivered_conserved p1 both_ready
           [Receive hello; Receive world;
            Receive (ack_from "processo1" 4 hello);
            Receive (ack_from "processo2" 4 hello);
            Receive (ack_from "processo1" 5 world);
            Receive (ack_from "processo2" 5 world);
            Receive (ack_from "processo3" 5 world);
            Receive (ack_from "processo3" 6 hello)]).
  - apply reachable_p1.
  - vm_compute. reflexivity.
Defined.

(** X9. In a running process, the message a successful
    [try_deliver_message] hands to the delivery callback is first in the
    order of [(timestamp, sender)] among all queued messages: every message
    left in the queue has a greater timestamp, or the same timestamp and a
    sender that is not smaller. *)
Theorem delivered_is_least (st st' : Process) :
  reachable st → try_deliver_message st = Done true st' →
  ∃ h, delivered st' = delivered st ++ [h] ∧
       message_queue st = h :: message_queue st' ∧
       Forall (ascending h) (message_queue st').
Proof.
  intros (Hq & _ & Hsorted)%reachable_invariant Hrun.
  destruct (try_deliver_message_Done_true st st' Hq Hrun)
    as (h & q & acked & Hqueue & _ & -> & _).
  exists h. rewrite Hqueue in Hsorted.
  apply StronglySorted_ascending, StronglySorted_cons in Hsorted as [Hall _].
  unfold after_delivery, delivered. simpl. rewrite Hqueue, omap_app. simpl.
  by split_and!.
Qed.

Lemma delivered_is_least_witness :
  ∃ h, delivered (state_after [TryDeliver] both_ready) = delivered both_ready ++ [h] ∧
       message_queue both_ready = h :: message_queue (state_after [TryDeliver] both_ready) ∧
       Forall (ascending h) (message_queue (state_after [TryDeliver] both_ready)).
Proof.
  apply (delivered_is_least both_ready).
  - apply reachable_state_after, reachable_state_after, reachable_p1.
  - vm_compute. reflexivity.
Defined.

(** X10. In every state of a running process, after receipts and after
    deliveries alike, the queue holds Multicasts only and is sorted
    ascending by [(timestamp, sender)], and every buffered acknowledgment is
    filed under the id it acknowledges, in a buffer entry that is not
    empty. *)
Theorem queue_and_buffer_invariant (st : Process) :
  reachable st →
  Forall (λ m, msg_type m = MULTICAST) (message_queue st) ∧
  StronglySorted ascending (message_queue st) ∧
  (∀ k l, pending_acks st !! k = Some l →
          l ≠ [] ∧ Forall (λ a, original_msg_id a = k) l).
Proof.
  intros Hreach. split_and!.
  - revert st Hreach. apply reachable_induction.
    + intros pid p others inc st0. unfold Process__init__.
      destruct (port_names _); simpl; [|done..]. intros [= <-]. constructor.
    + intros c st (Hq & Hkeyed & _)%reachable_invariant IH.
      destruct c as [m| |content|m|]; simpl; try done.
      * destruct (msg_type m) eqn:Hty.
        -- rewrite after_multicast_fields by done. simpl.
           rewrite sorted_Permutation. apply Forall_app. by repeat constructor.
        -- by destruct (after_ack_cases m st) as [(k' & acked & _ & _ & ->)|[_ ->]].
      * unfold after_try_deliver.
        destruct (message_queue st) as [|h q] eqn:Hqueue; [by rewrite Hqueue|].
        destruct (acknowledgments st !! msg_id h) as [acked|]; [|by rewrite Hqueue].
        destruct (bool_decide _); [|by rewrite Hqueue].
        simpl. rewrite Hqueue. simpl. by apply Forall_cons in IH as [_ ?].
  - by apply StronglySorted_ascending, reachable_invariant.
  - intros k l Hl. split; [|by eapply reachable_invariant].
    revert st Hreach k l Hl. apply (reachable_induction (λ st, ∀ k l, _ → l ≠ [])).
    + intros pid p others inc st0. unfold Process__init__.
      destruct (port_names _); simpl; [|done..]. intros [= <-] k l. simpl.
      by rewrite lookup_empty.
    + intros c st (Hq & Hkeyed & _)%reachable_invariant IH k l.
      destruct c as [m| |content|m|]; simpl; try apply IH.
      * destruct (msg_type m) eqn:Hty.
        -- rewrite after_multicast_fields by done. simpl.
           rewrite lookup_delete. case_decide; [done|]. apply IH.
        -- destruct (after_ack_cases m st) as [(k' & acked & _ & _ & ->)|[_ ->]];
             simpl; [apply IH|].
           rewrite lookup_insert. case_decide; [|apply IH].
           intros [= <-]. by intros [_ [=]]%app_eq_nil.
      * unfold after_try_deliver.
        destruct (message_queue st) as [|h q] eqn:Hqueue; [apply IH|].
        destruct (acknowledgments st !! msg_id h) as [acked|]; [|apply IH].
        destruct (bool_decide _); [|apply IH]. apply IH.
Qed.

Lemma queue_and_buffer_invariant_witness :
  Forall (λ m, msg_type m = MULTICAST) (message_queue hello_blocked).
Proof.
  apply (queue_and_buffer_invariant hello_blocked).
  apply reachable_state_after, reachable_p1.
Defined.

(** ** process.py: acknowledgments and the quorum *)

Lemma foldl_after_call_acks (l : list Message) (st : Process) :
  Forall (λ a, msg_type a = ACK) l →
  foldl (λ s c, after_call c s) st (Receive <$> l) = foldl (λ s a, after_ack a s) st l.
Proof.
  intros Hl. revert st. induction Hl as [|a l Ha _ IH]; intros st; simpl; [done|].
  by rewrite Ha, IH.
Qed.

(** X11. A running process with an empty queue and nothing buffered for a
    Multicast [m] receives [m] and then any acknowledgments for it: [m] is
    the queue, its entry is the set of the acknowledging senders, and
    [try_deliver_message] returns [True] exactly when that set has at least
    [required_acks] members.  Acknowledgments from every member of the group
    are therefore enough; the senders are counted by name and are not
    checked against the group. *)
Theorem quorum_decides_delivery (st : Process) (m : Message) (acks : list Message) :
  reachable st → message_queue st = [] →
  pending_acks st !! Some (msg_id m) = None →
  msg_type m = MULTICAST →
  Forall (λ a, msg_type a = ACK ∧ original_msg_id a = Some (msg_id m)) acks →
  ∃ st1,
    run_calls (Receive m :: (Receive <$> acks)) st = Done tt st1 ∧
    message_queue st1 = [m] ∧
    acknowledgments st1 !! msg_id m = Some (list_to_set (sender <$> acks)) ∧
    (returned (try_deliver_message st1) = Some true ↔
     required_acks st ≤ size (list_to_set (sender <$> acks) : gset string)) ∧
    (all_processes st ⊆ list_to_set (sender <$> acks) →
     returned (try_deliver_message st1) = Some true).
Proof.
  intros Hreach Hqueue Hnone Hty Hacks.
  destruct (reachable_run_calls (Receive m :: (Receive <$> acks)) st Hreach)
    as (Hrun & Hreach1 & Hq1).
  pose proof (reachable_invariant _ Hreach) as (Hq & Hkeyed & _).
  exists (state_after (Receive m :: (Receive <$> acks)) st).
  split; [done|].
  assert (state_after (Receive m :: (Receive <$> acks)) st
          = set_acknowledgments
              (<[msg_id m := list_to_set (sender <$> acks)]> (acknowledgments st))
              (set_logical_clock
                 (foldl (λ c a, clock_after_receive (clock_increment st) c (timestamp a))
                    (clock_after_receive (clock_increment st) (logical_clock st)
                       (timestamp m)) acks)
                 (set_effects (effects st ++ [TimerStarted m])
                    (set_message_queue [m] st)))) as ->.
  { rewrite state_after_spec by by apply reachable_invariant. simpl. rewrite Hty.
    rewrite foldl_after_call_acks by (eapply Forall_impl; [done|]; by intros ? [? _]).
    rewrite after_multicast_fields by done. rewrite Hnone, Hqueue. simpl.
    rewrite (foldl_after_ack acks _ (msg_id m) ∅);
      [|eapply Forall_impl; [done|]; by intros ? [_ ?]|simpl; apply lookup_insert_eq].
    simpl. rewrite insert_insert_eq, union_empty_l_L, delete_id by done.
    by destruct st. }
  assert (quiescent
            (set_acknowledgments
               (<[msg_id m := list_to_set (sender <$> acks)]> (acknowledgments st))
               (set_logical_clock
                  (foldl (λ c a, clock_after_receive (clock_increment st) c (timestamp a))
                     (clock_after_receive (clock_increment st) (logical_clock st)
                        (timestamp m)) acks)
                  (set_effects (effects st ++ [TimerStarted m])
                     (set_message_queue [m] st))))) as Hq' by done.
  assert (returned (try_deliver_message
            (set_acknowledgments
               (<[msg_id m := list_to_set (sender <$> acks)]> (acknowledgments st))
               (set_logical_clock
                  (foldl (λ c a, clock_after_receive (clock_increment st) c (timestamp a))
                     (clock_after_receive (clock_increment st) (logical_clock st)
                        (timestamp m)) acks)
                  (set_effects (effects st ++ [TimerStarted m])
                     (set_message_queue [m] st))))) = Some true ↔
          required_acks st ≤ size (list_to_set (sender <$> acks) : gset string))
    as Hiff.
  { rewrite try_deliver_message_True by done. simpl. split.
    - intros (h & q & acked & [= <- <-] & Hacked & Hsize).
      rewrite lookup_insert_eq in Hacked. by injection Hacked as <-.
    - intros Hsize. eexists m, [], _. split_and!; [done| |done].
      apply lookup_insert_eq. }
  split_and!; [done|simpl; apply lookup_insert_eq|done|].
  intros Hall. apply Hiff.
  destruct (reachable_required_acks st Hreach) as [-> _].
  by apply subseteq_size.
Qed.

Lemma quorum_decides_delivery_witness :
  ∃ st1,
    run_calls (Receive hello ::
               (Receive <$> [ack_from "processo2" 2 hello; ack_from "processo1" 3 hello;
                             ack_from "processo3" 3 hello])) p1 = Done tt st1 ∧
    message_queue st1 = [hello].
Proof.
  destruct (quorum_decides_delivery p1 hello
              [ack_from "processo2" 2 hello; ack_from "processo1" 3 hello;
               ack_from "processo3" 3 hello]) as (st1 & Hrun & Hqueue & _).
  - apply reachable_p1.
  - reflexivity.
  - vm_compute. reflexivity.
  - reflexivity.
  - repeat constructor.
  - exists st1. split; assumption.
Defined.

(** X12. In a running process, an acknowledgment for an id that has an
    entry adds its sender to that entry and touches neither the queue, the
    buffer nor any other entry; when the sender is already in the entry the
    table is left as it was, so a repeated acknowledgment is counted once. *)
Theorem repeated_ack_counts_once (st : Process) (a : Message) (k : string)
    (acked : gset string) :
  reachable st → original_msg_id a = Some k →
  acknowledgments st !! k = Some acked →
  ∃ st1,
    _process_acknowledgment a st = Done tt st1 ∧
    acknowledgments st1 = <[k := acked ∪ {[sender a]}]> (acknowledgments st) ∧
    message_queue st1 = message_queue st ∧
    pending_acks st1 = pending_acks st ∧
    effects st1 = effects st ∧
    (sender a ∈ acked → acknowledgments st1 = acknowledgments st) ∧
    (∀ b, original_msg_id b = Some k → sender b = sender a →
          ∃ st2, _process_acknowledgment b st1 = Done tt st2 ∧
                 acknowledgments st2 = acknowledgments st1).
Proof.
  intros Hreach Hk Hacked.
  pose proof (reachable_invariant _ Hreach) as Hinv.
  pose proof (after_ack_invariant a st Hinv) as ((Hclock & _ & Hack & Hpending) & _ & _).
  exists (after_ack a st). split; [by apply reachable__process_acknowledgment|].
  rewrite (after_ack_known a st k acked) in * by done. simpl in *.
  split_and!; try done.
  - intros Hin.
    assert (acked ∪ {[sender a]} = acked) as ->; [|by apply insert_id].
    apply set_eq. intros x. rewrite elem_of_union, elem_of_singleton.
    split; [by intros [?| ->]|by left].
  - intros b Hb Hsender. eexists. split.
    + rewrite _process_acknowledgment_spec by done. unfold ack_lookup.
      rewrite Hb. simpl. by rewrite lookup_insert_eq.
    + erewrite after_ack_known; [|done|simpl; apply lookup_insert_eq]. simpl.
      rewrite insert_insert_eq, Hsender. f_equal.
      rewrite <-(assoc_L (∪)). by rewrite (idemp_L (∪)).
Qed.

Lemma repeated_ack_counts_once_witness :
  ∃ st1,
    _process_acknowledgment (ack_from "processo1" 9 hello) hello_blocked = Done tt st1 ∧
    acknowledgments st1
    = <[msg_id hello := {["processo1"; "processo2"]} ∪ {["processo1"]}]>
        (acknowledgments hello_blocked).
Proof.
  destruct (repeated_ack_counts_once hello_blocked (ack_from "processo1" 9 hello)
              (msg_id hello) {["processo1"; "processo2"]})
    as (st1 & Hrun & Hacks & _).
  - apply reachable_state_after, reachable_p1.
  - reflexivity.
  - vm_compute. reflexivity.
  - exists st1. split; assumption.
Defined.

(** ** process.py: delivering a whole queue *)

Lemma run_calls_cons (c : call) (cs : list call) (st : Process) :
  run_calls (c :: cs) st =
  match run_call c st with
  | Done _ st' => run_calls cs st'
  | Raised e st' => Raised e st'
  | Hang => Hang
  end.
Proof. done. Qed.

(** X13. When no lock is held, the ids in the queue are pairwise different
    and every queued message has an entry of at least [required_acks]
    senders, as many [try_deliver_message] calls as there are queued
    messages all succeed: they hand the whole queue to the delivery
    callback in queue order and leave the queue empty, the buffer and the
    clock untouched. *)
Theorem deliver_whole_queue (st : Process) :
  quiescent st →
  NoDup (msg_id <$> message_queue st) →
  Forall (λ m, ∃ acked, acknowledgments st !! msg_id m = Some acked ∧
                        required_acks st ≤ size acked) (message_queue st) →
  ∃ st',
    run_calls (replicate (length (message_queue st)) TryDeliver) st = Done tt st' ∧
    message_queue st' = [] ∧
    delivered st' = delivered st ++ message_queue st ∧
    pending_acks st' = pending_acks st ∧
    logical_clock st' = logical_clock st ∧
    quiescent st'.
Proof.
  remember (message_queue st) as q eqn:Hqueue. revert st Hqueue.
  induction q as [|h q IH]; intros st Hqueue Hq Hnodup Hready.
  { exists st. simpl. by rewrite app_nil_r. }
  apply NoDup_cons in Hnodup as [Hh Hnodup].
  apply Forall_cons in Hready as [(acked & Hacked & Hsize) Hready].
  destruct (IH (after_delivery h st)) as (st' & Hrun & Hempty & Hdel & Hpend & Hclk & Hq').
  - simpl. by rewrite <-Hqueue.
  - done.
  - done.
  - rewrite Forall_forall in Hready. apply Forall_forall. intros m Hm.
    destruct (Hready m Hm) as (acked' & Hacked' & Hsize').
    exists acked'. split; [|done]. simpl. rewrite lookup_delete_ne; [done|].
    intros Heq. apply Hh. rewrite Heq. by apply list_elem_of_fmap_2.
  - exists st'. simpl. rewrite run_calls_cons. simpl. unfold mbind, M_bind.
    rewrite try_deliver_message_spec, <-Hqueue, Hacked by done.
    rewrite bool_decide_eq_true_2 by done. simpl.
    split_and!; try done. rewrite Hdel. unfold after_delivery, delivered. simpl.
    rewrite omap_app. simpl. by rewrite <-(assoc_L (++)).
Qed.

Lemma deliver_whole_queue_witness :
  ∃ st',
    run_calls (replicate (length (message_queue both_ready)) TryDeliver) both_ready
    = Done tt st' ∧
    message_queue st' = [] ∧
    delivered st' = delivered both_ready ++ message_queue both_ready.
Proof.
  destruct (deliver_whole_queue both_ready) as (st' & Hrun & Hempty & Hdel & _).
  - by vm_compute.
  - apply (bool_decide_unpack _). vm_compute. exact I.
  - replace (message_queue both_ready) with [hello; world] by (vm_compute; reflexivity).
    repeat constructor.
    + exists {["processo1"; "processo2"; "processo3"]}.
      split; [vm_compute; reflexivity|vm_compute; lia].
    + exists {["processo1"; "processo2"; "processo3"]}.
      split; [vm_compute; reflexivity|vm_compute; lia].
  - exists st'. split_and!; assumption.
Defined.

(** ** process.py: sending and handling a connection *)

Lemma reachable_all_ports (st : Process) :
  reachable st → all_ports st = sorted Z.ltb (port st :: other_ports st).
Proof.
  revert st. apply reachable_induction.
  - intros pid p others inc st0. unfold Process__init__.
    destruct (port_names _); simpl; [|done..]. by intros [= <-].
  - intros c st Hinv%reachable_invariant IH.
    pose proof (config_after_call c st Hinv) as Hconfig.
    unfold config in Hconfig. injection Hconfig as _ -> -> _ -> _ _. done.
Qed.

Lemma from_dict_of_to_dict (m : Message) : from_dict (to_dict m) = Return m.
Proof.
  destruct m as [i ty s ts c o].
  unfold from_dict, to_dict, getitem, dict_get; simpl.
  rewrite !lookup_insert; simpl. by destruct ty, c, o.
Qed.

(** X14. In a running process [send_message(content)] returns.  It builds a
    Multicast under the name of the process, stamped with the clock after
    one tick, and sends its dictionary once to every element of the sorted
    list of the process's own port and [other_ports], so to itself too; the
    dictionary decodes to the message.  It gives the id an empty entry in
    the table and leaves the queue and the buffer as they were: the sender
    queues its own message only when the broadcast comes back. *)
Theorem send_message_broadcasts (st : Process) (content : string) :
  reachable st →
  ∃ st' m,
    send_message content st = Done tt st' ∧
    m = Message__init__ MULTICAST (proc_id st)
          (logical_clock st + clock_increment st) (Some content) None ∧
    logical_clock st' = timestamp m ∧
    effects st' = effects st ++ map (λ p, SentTo p (to_dict m)) (all_ports st) ∧
    all_ports st = sorted Z.ltb (port st :: other_ports st) ∧
    port st ∈ all_ports st ∧
    from_dict (to_dict m) = Return m ∧
    acknowledgments st' = <[msg_id m := ∅]> (acknowledgments st) ∧
    message_queue st' = message_queue st ∧
    pending_acks st' = pending_acks st.
Proof.
  intros Hreach. pose proof (reachable_invariant _ Hreach) as (Hq & _ & _).
  eexists _, _. split; [by apply send_message_spec|].
  split_and!;
    first [ by apply reachable_all_ports
          | apply from_dict_of_to_dict
          | by rewrite reachable_all_ports, elem_of_sorted by done; left
          | done ].
Qed.

Lemma send_message_broadcasts_witness :
  ∃ st' m,
    send_message "hi" p1 = Done tt st' ∧
    m = Message__init__ MULTICAST "processo1" 1 (Some "hi") None ∧
    effects st' = effects p1 ++ map (λ p, SentTo p (to_dict m)) [5000; 5001; 5002]%Z.
Proof.
  destruct (send_message_broadcasts p1 "hi" reachable_p1)
    as (st' & m & Hrun & Hm & _ & Heffects & _).
  exists st', m. split_and!; assumption.
Defined.




(** ** process.py: the queue display *)

Lemma show_row_spec (i : nat) (msg : Message) (st : Process) :
  ack_lock st = false → show_row i msg st = Done (row_of st i msg) st.
Proof.
  intros Hack. unfold show_row, row_of. run_monad. rewrite Hack. simpl.
  by same_state st.
Qed.

Lemma show_rows_spec (i : nat) (queue : list Message) (st : Process) :
  ack_lock st = false →
  show_rows i queue st = Done (imap (λ j, row_of st (i + j)) queue) st.
Proof.
  intros Hack. revert i. induction queue as [|msg queue IH]; intros i; simpl; [done|].
  unfold mbind, M_bind. rewrite show_row_spec, IH by done. simpl.
  rewrite Nat.add_0_r. do 2 f_equal.
  apply imap_ext. intros j m _. simpl. f_equal. lia.
Qed.

Lemma show_queue_spec (st : Process) :
  quiescent st →
  show_queue st =
  Done match message_queue st with
       | [] => None
       | head_msg :: _ =>
           Some (mk_queue_report
                   (imap (row_of st) (message_queue st))
                   ((λ ack_list : list Message, sender <$> ack_list) <$> pending_acks st)
                   (bool_decide
                      (required_acks st
                       ≤ size (default ∅ (acknowledgments st !! msg_id head_msg))))
                   (Z.of_nat (required_acks st)
                    - Z.of_nat (size (default ∅ (acknowledgments st !! msg_id head_msg)))))
       end st.
Proof.
  intros (Hclock & Hqueue & Hack & Hpending). unfold show_queue.
  unfold with_lock at 1. rewrite Hqueue.
  unfold mbind at 1, M_bind at 1, gets at 1. cbn [message_queue set_queue_lock].
  destruct (message_queue st) as [|h q] eqn:Hq.
  { unfold mret, M_ret. by same_state st. }
  unfold mbind at 1, M_bind at 1. rewrite show_rows_spec by done.
  run_monad. rewrite Hpending; simpl. rewrite Hack; simpl.
  by same_state st.
Qed.

Lemma try_deliver_message_head_ready (st : Process) (h : Message) (q : list Message) :
  quiescent st → 0 < required_acks st → message_queue st = h :: q →
  returned (try_deliver_message st) = Some true ↔
  required_acks st ≤ size (default ∅ (acknowledgments st !! msg_id h)).
Proof.
  intros Hq Hpos Hqueue. rewrite try_deliver_message_True by done. split.
  - intros (h' & q' & acked & Hqueue' & Hacked & Hsize).
    rewrite Hqueue in Hqueue'. injection Hqueue' as <- <-. by rewrite Hacked.
  - intros Hsize. destruct (acknowledgments st !! msg_id h) as [acked|] eqn:Hacked.
    + by exists h, q, acked.
    + cbn [default] in Hsize. rewrite size_empty in Hsize. lia.
Qed.

Lemma fmap_row_message_imap (f : nat → Message → queue_row) (l : list Message) :
  (∀ i m, row_message (f i m) = m) → row_message <$> imap f l = l.
Proof.
  revert f. induction l as [|x l IH]; intros f Hf; simpl; [done|].
  rewrite Hf. f_equal. apply IH. intros i m. apply Hf.
Qed.

(** X16. With no lock held and a positive [required_acks], [show_queue]
    returns and changes nothing.  For an empty queue it prints the empty
    line only; otherwise it prints one row per queued message, in queue
    order and numbered from 1, with the size of the message's entry (0 when
    it has none), and
    - a row is marked deliverable exactly when it is the first row and
      [try_deliver_message] would return [True];
    - a row is marked blocked for not being at the head exactly when it is
      not the first row and has at least [required_acks] acknowledgments;
    - the closing status line says the head can be delivered exactly when
      [try_deliver_message] would return [True]. *)
Theorem show_queue_agrees_with_delivery (st : Process) :
  quiescent st → 0 < required_acks st →
  ∃ report,
    show_queue st = Done report st ∧
    (report = None ↔ message_queue st = []) ∧
    ∀ r, report = Some r →
      row_message <$> report_rows r = message_queue st ∧
      (∀ i row, report_rows r !! i = Some row →
         row_number row = i + 1 ∧
         row_head row = bool_decide (i = 0) ∧
         row_needed row = required_acks st ∧
         row_acks row
         = size (default ∅ (acknowledgments st !! msg_id (row_message row))) ∧
         (row_deliverable row = true ↔
          i = 0 ∧ returned (try_deliver_message st) = Some true) ∧
         (row_blocked row = NotAtHead ↔
          i ≠ 0 ∧ required_acks st ≤ row_acks row) ∧
         (row_blocked row = NotBlocked ↔ row_deliverable row = true ∨
          (i ≠ 0 ∧ row_acks row < required_acks st))) ∧
      (report_head_ready r = true ↔
       returned (try_deliver_message st) = Some true) ∧
      report_pending r
      = (λ ack_list : list Message, sender <$> ack_list) <$> pending_acks st.
Proof.
  intros Hq Hpos. rewrite show_queue_spec by done. eexists. split; [done|].
  destruct (message_queue st) as [|h q] eqn:Hqueue; [done|].
  split; [done|]. intros r [= <-].
  cbn [report_rows report_pending report_head_ready].
  change (row_of st 0 h :: imap (row_of st ∘ S) q) with (imap (row_of st) (h :: q)).
  rewrite <-Hqueue. split_and!.
  - by apply fmap_row_message_imap.
  - intros i row. rewrite list_lookup_imap.
    destruct (message_queue st !! i) as [m|] eqn:Hm; simpl; [|done].
    intros [= <-]. unfold row_of. simpl.
    assert (i = 0 → m = h) as Hhead.
    { intros ->. rewrite Hqueue in Hm. by injection Hm as ->. }
    pose proof (try_deliver_message_head_ready st h q Hq Hpos Hqueue) as Hready.
    split_and!; try done.
    + rewrite andb_true_iff, !bool_decide_eq_true. split.
      * intros [-> Hsize]. rewrite Hhead in Hsize by done. by rewrite Hready.
      * intros [-> Hsize]. rewrite Hhead by done. by rewrite <-Hready.
    + repeat case_bool_decide; simpl; split; try done; intros [? ?]; done.
    + repeat case_bool_decide; simpl;
        (split;
         [intros ?; first [done|by left|right; split; [done|lia]]
         |intros [?|[? ?]]; first [done|lia]]).
  - rewrite bool_decide_eq_true.
    by rewrite (try_deliver_message_head_ready st h q).
  - done.
Qed.

Lemma show_queue_agrees_with_delivery_witness :
  ∃ report, show_queue hello_blocked = Done report hello_blocked.
Proof.
  destruct (show_queue_agrees_with_delivery hello_blocked) as (report & Hshow & _).
  - by vm_compute.
  - vm_compute. lia.
  - by exists report.
Defined.

Example show_queue_blocked :
  (λ r, (row_number r, content (row_message r), row_acks r, row_needed r,
         row_deliverable r, row_head r, row_blocked r))
  <$> default [] (report_rows <$> default None (returned (show_queue hello_blocked)))
  = [(1, Some "hello", 2, 3, false, true, NeedsMore 1);
     (2, Some "world", 3, 3, false, false, NotAtHead)].
Proof. vm_compute. reflexivity. Qed.

(** ** main.py *)





Example main_process_second_port :
  main_process (λ p, bool_decide (p = 5001%Z)) (Some (-3)%Z)
  = Some (Return (main_state 5001 "processo2" 1)).
Proof. vm_compute. reflexivity. Qed.

(** ** process.py: acknowledging *)



Lemma scheduled_after_call (c : call) (st : Process) :
  invariant st → scheduled (after_call c st) = scheduled st ++ received [c].
Proof.
  intros (Hq & Hkeyed & _). unfold scheduled.
  destruct c as [m| |content|m|]; simpl.
  - destruct (msg_type m) eqn:Hty.
    + rewrite after_multicast_fields by done. simpl. by rewrite omap_app.
    + rewrite app_nil_r.
      by destruct (after_ack_cases m st) as [(k' & acked & _ & _ & ->)|[_ ->]].
  - rewrite app_nil_r. unfold after_try_deliver.
    destruct (message_queue st) as [|h q]; [done|].
    destruct (acknowledgments st !! msg_id h) as [acked|]; [|done].
    destruct (bool_decide _); [|done]. simpl. by rewrite omap_app, app_nil_r.
  - rewrite omap_app. f_equal. by induction (all_ports st).
  - rewrite omap_app. f_equal. by induction (all_ports st).
  - by rewrite app_nil_r.
Qed.

(** X20. Along any calls on a running process an acknowledgment timer is
    started for each Multicast received, once per receipt and in the order
    of receipt, and for nothing else: no receipt goes unacknowledged, and
    neither an acknowledgment, a delivery nor a send starts a timer. *)
Theorem timer_per_received_multicast (st st' : Process) (cs : list call) :
  reachable st → run_calls cs st = Done tt st' →
  scheduled st' = scheduled st ++ received cs.
Proof.
  intros Hinv%reachable_invariant Hrun.
  apply run_calls_Done in Hrun as ->; [|done].
  revert st Hinv. induction cs as [|c cs IH]; intros st Hinv.
  { simpl. by rewrite app_nil_r. }
  cbn [foldl]. rewrite IH by by apply after_call_invariant.
  rewrite scheduled_after_call, (received_cons c cs) by done.
  by rewrite (assoc_L (++)).
Qed.

Lemma timer_per_received_multicast_witness :
  scheduled both_ready = scheduled p1 ++ [hello; world].
Proof.
  apply (timer_per_received_multicast p1 both_ready
           [Receive hello; Receive world;
            Receive (ack_from "processo1" 4 hello);
            Receive (ack_from "processo2" 4 hello);
            Receive (ack_from "processo1" 5 world);
            Receive (ack_from "processo2" 5 world);
            Receive (ack_from "processo3" 5 world);
            Receive (ack_from "processo3" 6 hello)]).
  - apply reachable_p1.
  - vm_compute. reflexivity.
Defined.
